(** * JSON analyzer: structural statistics, duplicate detection, key validation

    A shallow embedding of [JSONAnalyzer] (json_analyzer.py): the three
    methods that work on the parsed document, [analyze_structure],
    [validate_schema] and [find_duplicates], together with the parts of the
    Python runtime they observe ([type(x).__name__], [json.dumps] on scalars,
    [str] on containers, [Counter]). *)

From Stdlib Require Import Ascii String.
From stdpp Require Import base numbers list strings gmap fin_maps.
From stdpp Require Import pretty sorting.

Local Open Scope string_scope.
Local Open Scope list_scope.
Local Open Scope Z_scope.

(** ** Values produced by [json.load] *)

(** A Python float as the code can observe it: the code only ever prints a
    float ([json.dumps] or [str]), and [float.__repr__] is one-to-one on the
    finite floats, so a finite float is carried by its repr text. *)
Inductive PyFloat : Type :=
  | FNan
  | FInf (negative : bool)
  | FFinite (repr : string).

(** [dict] keeps insertion order, which [items()] exposes, so an object is a
    list of pairs.  A Python [str] is a [string] whose characters are read as
    the code points 0..255. *)
#[local] Unset Elimination Schemes.
Inductive Value : Type :=
  | JNull
  | JBool (b : bool)
  | JInt (n : Z)
  | JFloat (f : PyFloat)
  | JString (s : string)
  | JArray (items : list Value)
  | JObject (fields : list (string * Value)).
#[local] Set Elimination Schemes.

Definition is_dict (obj : Value) : bool :=
  match obj with JObject _ => true | _ => false end.

Definition is_list (obj : Value) : bool :=
  match obj with JArray _ => true | _ => false end.

Definition is_None (obj : Value) : bool :=
  match obj with JNull => true | _ => false end.

(** [type(obj).__name__] *)
Definition type_name (obj : Value) : string :=
  match obj with
  | JNull => "NoneType"
  | JBool _ => "bool"
  | JInt _ => "int"
  | JFloat _ => "float"
  | JString _ => "str"
  | JArray _ => "list"
  | JObject _ => "dict"
  end.

(** [key in d] for a dict [d] *)
Definition dict_contains (fields : list (string * Value)) (key : string)
    : bool :=
  bool_decide (key ∈ fields.*1).

(** ** [collections.Counter] *)

Module Counter.

(** [c[label]]: a label that was never counted reads as 0. *)
Definition get (c : gmap string Z) (label : string) : Z :=
  default 0 (c !! label).

(** [c[label] += 1] *)
Definition incr (label : string) (c : gmap string Z) : gmap string Z :=
  <[label := get c label + 1]> c.

(** [c.update(v)]: counts are added label by label. *)
Definition update (c v : gmap string Z) : gmap string Z :=
  union_with (λ a b, Some (a + b)) c v.

(** The sum of the counts of the labels that satisfy [keep]. *)
Definition total (keep : string → bool) (c : gmap string Z) : Z :=
  map_fold (λ label n acc, if keep label then n + acc else acc) 0 c.

End Counter.

(** ** analyze_structure *)

Record Stats : Type := mkStats {
  type_counts : gmap string Z;
  max_depth : Z;
  total_keys : Z;
  null_values : Z;
  arrays : Z;
  objects : Z
}.

(** The [for k, v in child_stats.items()] loop: counters are added, the two
    depths are combined with [max], the type counts with [Counter.update]. *)
Definition merge (stats child_stats : Stats) : Stats :=
  {| type_counts :=
       Counter.update (type_counts stats) (type_counts child_stats);
     max_depth := Z.max (max_depth stats) (max_depth child_stats);
     total_keys := total_keys stats + total_keys child_stats;
     null_values := null_values stats + null_values child_stats;
     arrays := arrays stats + arrays child_stats;
     objects := objects stats + objects child_stats |}.

Definition count_null (value : Value) (stats : Stats) : Stats :=
  if is_None value
  then {| type_counts := type_counts stats; max_depth := max_depth stats;
          total_keys := total_keys stats; null_values := null_values stats + 1;
          arrays := arrays stats; objects := objects stats |}
  else stats.

Fixpoint recursive_analyze (obj : Value) (depth max_depth : Z) : Stats :=
  match obj with
  | JObject fields =>
      fold_left
        (λ stats kv,
           merge (count_null kv.2 stats)
                 (recursive_analyze kv.2 (depth + 1)
                    (Z.max max_depth (depth + 1))))
        fields
        {| type_counts := ∅; max_depth := max_depth;
           total_keys := 0 + Z.of_nat (length fields); null_values := 0;
           arrays := 0; objects := 0 + 1 |}
  | JArray items =>
      fold_left
        (λ stats item,
           merge stats
                 (recursive_analyze item (depth + 1)
                    (Z.max max_depth (depth + 1))))
        items
        {| type_counts := Counter.incr "array" ∅; max_depth := max_depth;
           total_keys := 0; null_values := 0; arrays := 0 + 1; objects := 0 |}
  | _ =>
      {| type_counts := Counter.incr (type_name obj) ∅;
         max_depth := max_depth; total_keys := 0; null_values := 0;
         arrays := 0; objects := 0 |}
  end.

Definition analyze_structure (data : Value) : Stats :=
  recursive_analyze data 0 0.

(** ** validate_schema *)

Record ValidationResult : Type := mkValidation {
  valid : bool;
  missing_keys : list string;
  found_keys : list string;
  error : option string
}.

(** One turn of the [for key in required_keys] loop. *)
Definition validate_key (fields : list (string * Value))
    (results : ValidationResult) (key : string) : ValidationResult :=
  if dict_contains fields key
  then {| valid := valid results; missing_keys := missing_keys results;
          found_keys := found_keys results ++ [key]; error := error results |}
  else {| valid := false; missing_keys := missing_keys results ++ [key];
          found_keys := found_keys results; error := error results |}.

Definition validate_schema (data : Value) (required_keys : list string)
    : ValidationResult :=
  let results := {| valid := true; missing_keys := []; found_keys := [];
                    error := None |} in
  match data with
  | JObject fields => fold_left (validate_key fields) required_keys results
  | _ =>
      {| valid := false; missing_keys := missing_keys results;
         found_keys := found_keys results;
         error := Some "Root must be an object for schema validation" |}
  end.

(** ** The text forms the duplicate finder compares *)

Module Text.

Definition quote : ascii := ascii_of_N 34.
Definition apostrophe : ascii := ascii_of_N 39.
Definition backslash : ascii := ascii_of_N 92.

Definition hex_digit (n : N) : ascii :=
  default "0"%char (list_ascii_of_string "0123456789abcdef" !! N.to_nat n).

Definition hex2 (n : N) : string :=
  String (hex_digit (n / 16)) (String (hex_digit (n mod 16)) "").

Definition concat_map (f : ascii → string) (s : string) : string :=
  String.concat "" (f <$> list_ascii_of_string s).

(** [json.dumps] of a [str] (with the default [ensure_ascii]): quote and
    backslash get a backslash, the usual control characters their letter,
    and everything else outside the printable ASCII range a [\u] escape. *)
Definition json_escape (c : ascii) : string :=
  let n := N_of_ascii c in
  if (n =? 34)%N then String backslash (String quote "")
  else if (n =? 92)%N then String backslash (String backslash "")
  else if (n =? 8)%N then String backslash "b"
  else if (n =? 12)%N then String backslash "f"
  else if (n =? 10)%N then String backslash "n"
  else if (n =? 13)%N then String backslash "r"
  else if (n =? 9)%N then String backslash "t"
  else if ((32 <=? n) && (n <=? 126))%N then String c ""
  else String backslash ("u00" +:+ hex2 n).

Definition json_string (s : string) : string :=
  String quote (concat_map json_escape s +:+ String quote "").

(** [str.isprintable] on the code points below 256. *)
Definition printable (n : N) : bool :=
  ((32 <=? n) && (n <=? 126) || (161 <=? n) && negb (n =? 173))%N.

Definition has (c : ascii) (s : string) : bool :=
  bool_decide (c ∈ list_ascii_of_string s).

(** [repr] of a [str]: apostrophes around it, unless it holds an apostrophe
    and no double quote. *)
Definition repr_quote (s : string) : ascii :=
  if has apostrophe s && negb (has quote s) then quote else apostrophe.

Definition repr_escape (q : ascii) (c : ascii) : string :=
  let n := N_of_ascii c in
  if (n =? N_of_ascii q)%N || (n =? 92)%N then String backslash (String c "")
  else if (n =? 9)%N then String backslash "t"
  else if (n =? 10)%N then String backslash "n"
  else if (n =? 13)%N then String backslash "r"
  else if printable n then String c ""
  else String backslash ("x" +:+ hex2 n).

Definition repr_string (s : string) : string :=
  let q := repr_quote s in
  String q (concat_map (repr_escape q) s +:+ String q "").

(** [float.__repr__] *)
Definition repr_float (f : PyFloat) : string :=
  match f with
  | FNan => "nan"
  | FInf false => "inf"
  | FInf true => "-inf"
  | FFinite repr => repr
  end.

(** [json.dumps] of a [float] *)
Definition json_float (f : PyFloat) : string :=
  match f with
  | FNan => "NaN"
  | FInf false => "Infinity"
  | FInf true => "-Infinity"
  | FFinite repr => repr
  end.

(** [str(obj)], which for the built-in types is [repr(obj)]. *)
Fixpoint str (obj : Value) : string :=
  match obj with
  | JNull => "None"
  | JBool true => "True"
  | JBool false => "False"
  | JInt n => pretty n
  | JFloat f => repr_float f
  | JString s => repr_string s
  | JArray items => "[" +:+ String.concat ", " (str <$> items) +:+ "]"
  | JObject fields =>
      "{" +:+ String.concat ", "
               ((λ kv, repr_string kv.1 +:+ ": " +:+ str kv.2) <$> fields)
          +:+ "}"
  end.

(** [json.dumps(obj, sort_keys=True)] on the values the code gives it: it
    is called on scalars only, a container is printed with [str]. *)
Definition json_dumps (obj : Value) : string :=
  match obj with
  | JNull => "null"
  | JBool true => "true"
  | JBool false => "false"
  | JInt n => pretty n
  | JFloat f => json_float f
  | JString s => json_string s
  | JArray _ | JObject _ => str obj
  end.

End Text.

(** ** find_duplicates *)

Record DuplicateRecord : Type := mkDuplicate {
  path : string;
  value : Value;
  indices : Z * Z
}.

(** The key under which [check_array] remembers an element. *)
Definition item_str (item : Value) : string :=
  if negb (is_list item || is_dict item) then Text.json_dumps item
  else Text.str item.

(** The [for idx, item in enumerate(arr)] loop of [check_array]; [seen] maps
    a key to the index of its first occurrence and [duplicates] is the list
    the enclosing method appends to. *)
Fixpoint check_items (path : string) (arr : list Value) (idx : Z)
    (seen : gmap string Z) (duplicates : list DuplicateRecord)
    : list DuplicateRecord :=
  match arr with
  | [] => duplicates
  | item :: rest =>
      match seen !! item_str item with
      | Some first =>
          check_items path rest (idx + 1) seen
            (duplicates ++ [{| path := path; value := item;
                               indices := (first, idx) |}])
      | None =>
          check_items path rest (idx + 1) (<[item_str item := idx]> seen)
            duplicates
      end
  end.

Definition check_array (arr : Value) (path : string)
    (duplicates : list DuplicateRecord) : list DuplicateRecord :=
  match arr with
  | JArray items => check_items path items 0 ∅ duplicates
  | _ => duplicates
  end.

(** [for idx, item in enumerate(xs)], threading a state through the body. *)
Fixpoint for_enumerate {A S : Type} (body : Z → A → S → S) (xs : list A)
    (idx : Z) (st : S) : S :=
  match xs with
  | [] => st
  | x :: rest => for_enumerate body rest (idx + 1) (body idx x st)
  end.

Fixpoint traverse (obj : Value) (path : string)
    (duplicates : list DuplicateRecord) : list DuplicateRecord :=
  match obj with
  | JObject fields =>
      fold_left
        (λ duplicates kv, traverse kv.2 (path +:+ "." +:+ kv.1) duplicates)
        fields duplicates
  | JArray items =>
      for_enumerate
        (λ idx item duplicates,
           traverse item (path +:+ "[" +:+ pretty idx +:+ "]") duplicates)
        items 0 (check_array obj path duplicates)
  | _ => duplicates
  end.

Definition find_duplicates (data : Value) : list DuplicateRecord :=
  traverse data "root" [].

(** ** What the statistics are measured against *)

Fixpoint Zsum (xs : list Z) : Z :=
  match xs with
  | [] => 0
  | x :: rest => x + Zsum rest
  end.

(** The values directly below a container. *)
Definition children (v : Value) : list Value :=
  match v with
  | JArray items => items
  | JObject fields => fields.*2
  | _ => []
  end.

Fixpoint node_count (v : Value) : Z :=
  1 + match v with
      | JArray items => Zsum (node_count <$> items)
      | JObject fields => Zsum ((λ kv, node_count kv.2) <$> fields)
      | _ => 0
      end.

Fixpoint array_count (v : Value) : Z :=
  match v with
  | JArray items => 1 + Zsum (array_count <$> items)
  | JObject fields => Zsum ((λ kv, array_count kv.2) <$> fields)
  | _ => 0
  end.

Fixpoint object_count (v : Value) : Z :=
  match v with
  | JArray items => Zsum (object_count <$> items)
  | JObject fields => 1 + Zsum ((λ kv, object_count kv.2) <$> fields)
  | _ => 0
  end.

(** The number of object fields, anywhere in the tree, whose value is null. *)
Fixpoint null_field_count (v : Value) : Z :=
  match v with
  | JArray items => Zsum (null_field_count <$> items)
  | JObject fields =>
      Zsum ((λ kv, (if is_None kv.2 then 1 else 0) + null_field_count kv.2)
              <$> fields)
  | _ => 0
  end.

(** The number of nodes counted under [label]: an array under "array", a
    scalar under the name of its Python type, an object under no label. *)
Fixpoint label_count (label : string) (v : Value) : Z :=
  match v with
  | JArray items =>
      (if decide (label = "array") then 1 else 0)
      + Zsum (label_count label <$> items)
  | JObject fields => Zsum ((λ kv, label_count label kv.2) <$> fields)
  | _ => if decide (label = type_name v) then 1 else 0
  end.

(** Levels below the node: 0 for a scalar and for an empty container. *)
Fixpoint height (v : Value) : Z :=
  match v with
  | JArray items => foldr (λ c acc, Z.max (1 + height c) acc) 0 items
  | JObject fields => foldr (λ kv acc, Z.max (1 + height kv.2) acc) 0 fields
  | _ => 0
  end.

Definition is_scalar (v : Value) : bool := negb (is_list v || is_dict v).

(** A scalar, [{}] or [[]]. *)
Definition is_leaf (v : Value) : bool :=
  match v with
  | JArray (_ :: _) | JObject (_ :: _) => false
  | _ => true
  end.

(** The labels [type_counts] can hold. *)
Definition type_labels : list string :=
  ["array"; "str"; "int"; "float"; "bool"; "NoneType"].

(** The labels the specification lists for [type_counts]. *)
Definition documented_labels : list string :=
  ["object"; "array"; "string"; "number"; "bool"; "null"].

Definition not_array (label : string) : bool :=
  negb (bool_decide (label = "array")).

(** A measure of the statistics that [merge] adds up. *)
Definition additive (μ : Stats → Z) : Prop :=
  ∀ a b, μ (merge a b) = μ a + μ b.

(** The counts of the labels other than array, plus the two container
    counters. *)
Definition census (s : Stats) : Z :=
  Counter.total not_array (type_counts s) + arrays s + objects s.

(** ** What the duplicate records are measured against *)

(** One step down the tree: into an array element or into an object field. *)
Inductive Step : Type :=
  | AtIndex (idx : Z)
  | AtKey (key : string).

Definition step_text (s : Step) : string :=
  match s with
  | AtIndex idx => "[" +:+ pretty idx +:+ "]"
  | AtKey key => "." +:+ key
  end.

(** The text of a path that starts at [base] and goes down [steps]. *)
Definition path_from (base : string) (steps : list Step) : string :=
  fold_left (λ p s, p +:+ step_text s) steps base.

Definition path_text (steps : list Step) : string := path_from "root" steps.

Definition below (s : Step) (sn : list Step * Value) : list Step * Value :=
  (s :: sn.1, sn.2).

(** [f idx x] for each element [x] of [xs], numbered from [idx]. *)
Fixpoint map_numbered {A B : Type} (f : Z → A → B) (xs : list A) (idx : Z)
    : list B :=
  match xs with
  | [] => []
  | x :: rest => f idx x :: map_numbered f rest (idx + 1)
  end.

(** The nodes of a value in pre-order, each with the steps that lead to it:
    a node comes before everything below it, and the elements of an array
    and the fields of an object come in their own order. *)
Fixpoint preorder (v : Value) : list (list Step * Value) :=
  ([], v) ::
  match v with
  | JArray items =>
      mjoin (map_numbered (λ idx item, below (AtIndex idx) <$> preorder item)
                          items 0)
  | JObject fields =>
      mjoin ((λ kv, below (AtKey kv.1) <$> preorder kv.2) <$> fields)
  | _ => []
  end.

(** The index, counted from [idx], of the first element of [arr] whose key
    is [key]. *)
Fixpoint first_index_from (key : string) (arr : list Value) (idx : Z)
    : option Z :=
  match arr with
  | [] => None
  | item :: rest =>
      if decide (item_str item = key) then Some idx
      else first_index_from key rest (idx + 1)
  end.

Definition first_index (key : string) (arr : list Value) : option Z :=
  first_index_from key arr 0.

(** The records of the elements [rest], which stand at the indices from [idx]
    on in the array [arr]: one for each element that is not the first with
    its key, pairing the index of that first one with its own. *)
Fixpoint repeats_from (path : string) (arr rest : list Value) (idx : Z)
    : list DuplicateRecord :=
  match rest with
  | [] => []
  | item :: rest' =>
      match first_index (item_str item) arr with
      | Some first =>
          if decide (first < idx)
          then [{| path := path; value := item; indices := (first, idx) |}]
          else []
      | None => []
      end ++ repeats_from path arr rest' (idx + 1)
  end.

Definition array_records (path : string) (node : Value)
    : list DuplicateRecord :=
  match node with
  | JArray items => repeats_from path items items 0
  | _ => []
  end.

(** The records of one node, found at the end of [sn.1] below [base]. *)
Definition node_records (base : string) (sn : list Step * Value)
    : list DuplicateRecord :=
  array_records (path_from base sn.1) sn.2.

(** The loop invariant of [check_array]: [seen] holds, for each key, the
    index of its first occurrence among the elements [pre] already passed. *)
Definition seen_after (pre : list Value) (seen : gmap string Z) : Prop :=
  ∀ key, seen !! key = first_index key pre.

(** The record for a repeat of the integer 1 in the root array. *)
Definition repeat_of_one (first second : Z) : DuplicateRecord :=
  {| path := "root"; value := JInt 1; indices := (first, second) |}.

(** The number of fields of all the objects of the tree, an object counted
    each time it occurs. *)
Fixpoint key_count (v : Value) : Z :=
  match v with
  | JArray items => Zsum (key_count <$> items)
  | JObject fields =>
      Z.of_nat (length fields) + Zsum ((λ kv, key_count kv.2) <$> fields)
  | _ => 0
  end.

(** Every count a counter holds is positive. *)
Definition all_positive (c : gmap string Z) : Prop :=
  ∀ label n, c !! label = Some n → 0 < n.

(** ** The required keys on the command line *)

Module Cli.

(** [str.isspace] on the code points below 256: the characters [strip]
    removes. *)
Definition is_space (c : ascii) : bool :=
  let n := N_of_ascii c in
  ((9 <=? n) && (n <=? 13) || (28 <=? n) && (n <=? 32)
   || (n =? 133) || (n =? 160))%N.

(** [s.split(sep)] for a separator of one character. *)
Fixpoint split (sep : ascii) (s : string) : list string :=
  match s with
  | EmptyString => [EmptyString]
  | String c rest =>
      if decide (c = sep) then EmptyString :: split sep rest
      else match split sep rest with
           | piece :: pieces => String c piece :: pieces
           | [] => [String c EmptyString]
           end
  end.

Fixpoint lstrip (s : string) : string :=
  match s with
  | EmptyString => EmptyString
  | String c rest => if is_space c then lstrip rest else s
  end.

Fixpoint rstrip (s : string) : string :=
  match s with
  | EmptyString => EmptyString
  | String c rest =>
      match rstrip rest with
      | EmptyString => if is_space c then EmptyString else String c EmptyString
      | kept => String c kept
      end
  end.

(** [s.strip()] *)
Definition strip (s : string) : string := rstrip (lstrip s).

(** The keys [main] hands to [validate_schema]:
    [[k.strip() for k in args.validate.split(',')]]. *)
Definition required_keys_of (arg : string) : list string :=
  strip <$> split "," arg.

Definition first_char (s : string) : option ascii :=
  match s with
  | EmptyString => None
  | String c _ => Some c
  end.

Fixpoint last_char (s : string) : option ascii :=
  match s with
  | EmptyString => None
  | String c EmptyString => Some c
  | String _ rest => last_char rest
  end.

(** How often [c] stands in [s]. *)
Fixpoint count_char (c : ascii) (s : string) : nat :=
  match s with
  | EmptyString => 0%nat
  | String c' rest =>
      ((if decide (c' = c) then 1 else 0) + count_char c rest)%nat
  end.

(** A key as [required_keys_of] leaves it: no comma in it, no white space at
    either end. *)
Definition clean_key (key : string) : Prop :=
  Text.has "," key = false
  ∧ (∀ c, first_char key = Some c → is_space c = false)
  ∧ (∀ c, last_char key = Some c → is_space c = false).

(** The [if args.validate:] branch of [main], up to the call of
    [validate_schema]. *)
Definition validate_from_cli (data : Value) (arg : string)
    : ValidationResult :=
  validate_schema data (required_keys_of arg).

End Cli.

(** ** Induction over values *)

Section Value_induction.
Variable P : Value → Prop.
Hypothesis Hnull : P JNull.
Hypothesis Hbool : ∀ b, P (JBool b).
Hypothesis Hint : ∀ n, P (JInt n).
Hypothesis Hfloat : ∀ f, P (JFloat f).
Hypothesis Hstring : ∀ s, P (JString s).
Hypothesis Harray : ∀ items, Forall P items → P (JArray items).
Hypothesis Hobject :
  ∀ fields, Forall (λ kv, P kv.2) fields → P (JObject fields).

Fixpoint Value_nested_ind (v : Value) : P v :=
  match v with
  | JNull => Hnull
  | JBool b => Hbool b
  | JInt n => Hint n
  | JFloat f => Hfloat f
  | JString s => Hstring s
  | JArray items =>
      Harray items
        ((fix go (xs : list Value) : Forall P xs :=
            match xs with
            | [] => Forall_nil_2 P
            | x :: xs' => Forall_cons_2 P x xs' (Value_nested_ind x) (go xs')
            end) items)
  | JObject fields =>
      Hobject fields
        ((fix go (xs : list (string * Value)) : Forall (λ kv, P kv.2) xs :=
            match xs with
            | [] => Forall_nil_2 _
            | x :: xs' => Forall_cons_2 _ x xs' (Value_nested_ind x.2) (go xs')
            end) fields)
  end.
End Value_induction.

(** ** Counter arithmetic *)

Module CounterFacts.
Import Counter.

Lemma get_empty label : get ∅ label = 0.
Proof. unfold get. by rewrite lookup_empty. Qed.

Lemma get_incr c l label :
  get (incr l c) label = get c label + (if decide (label = l) then 1 else 0).
Proof.
  unfold incr, get. rewrite lookup_insert.
  destruct (decide (l = label)) as [->|Hne].
  - rewrite decide_True by done. simpl. done.
  - rewrite decide_False by done. lia.
Qed.

Lemma get_update c v label : get (update c v) label = get c label + get v label.
Proof.
  unfold update, get. rewrite lookup_union_with.
  destruct (c !! label), (v !! label); simpl; lia.
Qed.

Lemma total_empty keep : total keep ∅ = 0.
Proof. unfold total. by rewrite map_fold_empty. Qed.

Lemma total_insert_fresh keep c l n :
  c !! l = None →
  total keep (<[l:=n]> c) = (if keep l then n else 0) + total keep c.
Proof.
  intros Hl. unfold total. rewrite map_fold_insert_L; [|..|done].
  - by destruct (keep l).
  - intros j1 j2 z1 z2 y _ _ _. destruct (keep j1), (keep j2); lia.
Qed.

Lemma total_insert keep c l n :
  total keep (<[l:=n]> c) = (if keep l then n - get c l else 0) + total keep c.
Proof.
  unfold get. destruct (c !! l) as [x|] eqn:Hl; simpl.
  - rewrite <- (insert_delete_id c l x) at 2 by done.
    rewrite <- insert_delete_eq.
    rewrite !total_insert_fresh by apply lookup_delete_eq.
    destruct (keep l); lia.
  - rewrite total_insert_fresh by done. destruct (keep l); lia.
Qed.

Lemma total_incr keep c l :
  total keep (incr l c) = (if keep l then 1 else 0) + total keep c.
Proof. unfold incr. rewrite total_insert. destruct (keep l); lia. Qed.

Lemma update_empty_r c : update c ∅ = c.
Proof.
  apply map_eq. intros l. unfold update.
  rewrite lookup_union_with, lookup_empty. by destruct (c !! l).
Qed.

Lemma update_insert_r c v l n :
  v !! l = None →
  update c (<[l:=n]> v) = <[l := get c l + n]> (update c v).
Proof.
  intros Hl. apply map_eq. intros j. unfold update, get.
  rewrite lookup_union_with, !lookup_insert.
  destruct (decide (l = j)) as [->|Hne].
  - by destruct (c !! j).
  - by rewrite lookup_union_with.
Qed.

Lemma total_update keep c v :
  total keep (update c v) = total keep c + total keep v.
Proof.
  induction v as [|l n v Hl IH] using map_ind.
  - rewrite update_empty_r, total_empty. lia.
  - rewrite update_insert_r by done.
    rewrite total_insert, total_insert_fresh by done.
    rewrite get_update. unfold get at 3. rewrite Hl. simpl.
    destruct (keep l); lia.
Qed.

End CounterFacts.

(** ** Facts about the statistics *)

Section Analyzer.
Import Counter CounterFacts.

Lemma Zsum_ext {A} (f g : A → Z) (xs : list A) :
  Forall (λ x, f x = g x) xs → Zsum (f <$> xs) = Zsum (g <$> xs).
Proof.
  induction 1 as [|x xs Hx _ IH]; [done|].
  rewrite !fmap_cons. cbn [Zsum]. by rewrite Hx, IH.
Qed.

Lemma fold_merge_items μ (g : Value → Stats) items st :
  additive μ →
  μ (fold_left (λ stats item, merge stats (g item)) items st)
  = μ st + Zsum ((λ item, μ (g item)) <$> items).
Proof.
  intros Hμ. revert st.
  induction items as [|item items IH]; intros st; [cbn; lia|].
  rewrite fmap_cons. cbn [fold_left]. rewrite IH, Hμ. cbn. lia.
Qed.

Lemma fold_merge_fields μ (ν : Value → Z) (g : Value → Stats)
    (fields : list (string * Value)) st :
  additive μ →
  (∀ v s, μ (count_null v s) = μ s + ν v) →
  μ (fold_left (λ stats kv, merge (count_null kv.2 stats) (g kv.2)) fields st)
  = μ st + Zsum ((λ kv, ν kv.2 + μ (g kv.2)) <$> fields).
Proof.
  intros Hμ Hν. revert st.
  induction fields as [|kv fields IH]; intros st; [cbn; lia|].
  rewrite fmap_cons. cbn [fold_left]. rewrite IH, Hμ, Hν. cbn. lia.
Qed.

Lemma additive_arrays : additive arrays.
Proof. by intros [] []. Qed.
Lemma additive_objects : additive objects.
Proof. by intros [] []. Qed.
Lemma additive_null_values : additive null_values.
Proof. by intros [] []. Qed.
Lemma additive_get label : additive (λ s, get (type_counts s) label).
Proof. intros [] []. simpl. apply get_update. Qed.
Lemma additive_total keep : additive (λ s, total keep (type_counts s)).
Proof. intros [] []. simpl. apply total_update. Qed.

Lemma count_null_silent (μ : Stats → Z) :
  (∀ tc md tk nv nv' ar ob,
     μ (mkStats tc md tk nv ar ob) = μ (mkStats tc md tk nv' ar ob)) →
  ∀ v s, μ (count_null v s) = μ s + 0.
Proof.
  intros Hμ v [tc md tk nv ar ob]. unfold count_null.
  destruct (is_None v); simpl; rewrite ?Z.add_0_r; [apply Hμ|done].
Qed.

Lemma count_null_null_values v s :
  null_values (count_null v s) = null_values s + (if is_None v then 1 else 0).
Proof. unfold count_null. destruct (is_None v); simpl; lia. Qed.

Lemma arrays_spec v d m : arrays (recursive_analyze v d m) = array_count v.
Proof.
  revert d m.
  induction v as [| | | | |items IH|fields IH] using Value_nested_ind;
    intros d m;
    try reflexivity; cbn [recursive_analyze array_count].
  - rewrite (fold_merge_items arrays) by apply additive_arrays. simpl.
    f_equal. apply Zsum_ext. eapply Forall_impl; [exact IH|]. by intros.
  - rewrite (fold_merge_fields arrays (λ _, 0)
               (λ v, recursive_analyze v (d + 1) (Z.max m (d + 1)))); simpl;
      [|apply additive_arrays|by apply count_null_silent].
    apply Zsum_ext. eapply Forall_impl; [exact IH|]. simpl. intros ? ->. done.
Qed.

Lemma objects_spec v d m : objects (recursive_analyze v d m) = object_count v.
Proof.
  revert d m.
  induction v as [| | | | |items IH|fields IH] using Value_nested_ind;
    intros d m;
    try reflexivity; cbn [recursive_analyze object_count].
  - rewrite (fold_merge_items objects) by apply additive_objects. simpl.
    apply Zsum_ext. eapply Forall_impl; [exact IH|]. by intros.
  - rewrite (fold_merge_fields objects (λ _, 0)
               (λ v, recursive_analyze v (d + 1) (Z.max m (d + 1)))); simpl;
      [|apply additive_objects|by apply count_null_silent].
    f_equal. apply Zsum_ext. eapply Forall_impl; [exact IH|]. simpl.
    intros ? ->. done.
Qed.

Lemma null_values_spec v d m :
  null_values (recursive_analyze v d m) = null_field_count v.
Proof.
  revert d m.
  induction v as [| | | | |items IH|fields IH] using Value_nested_ind;
    intros d m;
    try reflexivity; cbn [recursive_analyze null_field_count].
  - rewrite (fold_merge_items null_values) by apply additive_null_values.
    simpl. apply Zsum_ext. eapply Forall_impl; [exact IH|]. by intros.
  - rewrite (fold_merge_fields null_values (λ v, if is_None v then 1 else 0)
               (λ v, recursive_analyze v (d + 1) (Z.max m (d + 1))));
      simpl; [|apply additive_null_values|apply count_null_null_values].
    apply Zsum_ext. eapply Forall_impl; [exact IH|]. simpl. intros ? ->. done.
Qed.

Lemma type_counts_spec label v d m :
  get (type_counts (recursive_analyze v d m)) label = label_count label v.
Proof.
  revert d m.
  induction v as [| | | | |items IH|fields IH] using Value_nested_ind;
    intros d m;
    cbn [recursive_analyze label_count type_counts];
    try (rewrite get_incr, get_empty; done).
  - rewrite (fold_merge_items (λ s, get (type_counts s) label))
      by apply additive_get.
    simpl. rewrite get_incr, get_empty. f_equal.
    apply Zsum_ext. eapply Forall_impl; [exact IH|]. by intros.
  - rewrite (fold_merge_fields (λ s, get (type_counts s) label) (λ _, 0)
               (λ v, recursive_analyze v (d + 1) (Z.max m (d + 1))));
      [|apply additive_get
       |by apply (count_null_silent (λ s, get (type_counts s) label))].
    simpl. rewrite get_empty. apply Zsum_ext. eapply Forall_impl; [exact IH|].
    simpl. intros ? ->. done.
Qed.

Lemma additive_plus μ1 μ2 :
  additive μ1 → additive μ2 → additive (λ s, μ1 s + μ2 s).
Proof. intros H1 H2 a b. rewrite H1, H2. lia. Qed.

Lemma additive_census : additive census.
Proof.
  intros a b. unfold census.
  rewrite additive_total, additive_arrays, additive_objects. lia.
Qed.

Lemma census_count_null v s : census (count_null v s) = census s + 0.
Proof. by apply (count_null_silent census). Qed.

Lemma census_spec v d m : census (recursive_analyze v d m) = node_count v.
Proof.
  revert d m.
  induction v as [| | | | |items IH|fields IH] using Value_nested_ind;
    intros d m; cbn [recursive_analyze node_count];
    try (unfold census; cbn [type_counts arrays objects type_name];
         rewrite total_incr, total_empty; reflexivity).
  - rewrite (fold_merge_items census) by apply additive_census.
    unfold census at 1. cbn [type_counts arrays objects].
    rewrite total_incr, total_empty. cbn. f_equal.
    apply Zsum_ext. eapply Forall_impl; [exact IH|]. by intros.
  - rewrite (fold_merge_fields census (λ _, 0)
               (λ v, recursive_analyze v (d + 1) (Z.max m (d + 1))));
      [|apply additive_census|apply census_count_null].
    unfold census at 1. cbn [type_counts arrays objects].
    rewrite total_empty. cbn. f_equal.
    apply Zsum_ext. eapply Forall_impl; [exact IH|]. simpl. by intros ? ->.
Qed.

(** *** Depth *)

Lemma foldr_max_nonneg {A} (hf : A → Z) xs :
  0 ≤ foldr (λ x acc, Z.max (1 + hf x) acc) 0 xs.
Proof. induction xs; simpl; lia. Qed.

Lemma height_nonneg v : 0 ≤ height v.
Proof. destruct v; simpl; try lia; apply foldr_max_nonneg. Qed.

Lemma fold_depth {A} (f : Stats → A → Stats) (hf : A → Z) d m xs st :
  Forall (λ x, ∀ s, max_depth (f s x)
                    = Z.max (max_depth s) (Z.max m (d + 1 + hf x))) xs →
  d ≤ m → m ≤ max_depth st →
  max_depth (fold_left f xs st)
  = Z.max (max_depth st) (d + foldr (λ x acc, Z.max (1 + hf x) acc) 0 xs).
Proof.
  intros Hxs Hd. revert st.
  induction Hxs as [|x xs Hx _ IH]; intros st Hm; simpl; [lia|].
  rewrite IH by (rewrite Hx; lia). rewrite Hx.
  pose proof (foldr_max_nonneg hf xs). lia.
Qed.

Lemma count_null_depth v s : max_depth (count_null v s) = max_depth s.
Proof. unfold count_null. by destruct (is_None v). Qed.

Lemma depth_spec v d m :
  d ≤ m → max_depth (recursive_analyze v d m) = Z.max m (d + height v).
Proof.
  revert d m.
  induction v as [| | | | |items IH|fields IH] using Value_nested_ind;
    intros d m Hd; cbn [recursive_analyze height]; try (simpl; lia).
  - rewrite (fold_depth _ height d m); simpl; [done| |done|done].
    eapply Forall_impl; [exact IH|]. simpl. intros c Hc s.
    rewrite Hc by lia. pose proof (height_nonneg c). lia.
  - rewrite (fold_depth _ (λ kv, height kv.2) d m); simpl; [done| |done|done].
    eapply Forall_impl; [exact IH|]. simpl. intros c Hc s.
    rewrite count_null_depth, Hc by lia. pose proof (height_nonneg c.2). lia.
Qed.

Lemma height_leaf v : height v = 0 ↔ is_leaf v = true.
Proof.
  destruct v as [| | | | |[|c items]|[|kv fields]]; simpl; try done.
  - pose proof (height_nonneg c).
    pose proof (foldr_max_nonneg height items). split; [lia|done].
  - pose proof (height_nonneg kv.2).
    pose proof (foldr_max_nonneg (λ kv, height kv.2) fields).
    split; [lia|done].
Qed.

Lemma label_count_labels label v :
  label_count label v ≠ 0 → label ∈ type_labels.
Proof.
  induction v as [| | | | |items IH|fields IH] using Value_nested_ind;
    cbn [label_count type_name]; try (case_decide; [subst|done]);
    try (intros _; compute_done).
  - intros Hne. case_decide; [subst; compute_done|].
    assert (Zsum (label_count label <$> items) ≠ 0) as Hs by lia. clear Hne.
    induction IH as [|c cs Hc _ IHcs]; [done|].
    rewrite fmap_cons in Hs. cbn [Zsum] in Hs.
    destruct (decide (label_count label c = 0)); [apply IHcs; lia|by apply Hc].
  - intros Hs.
    induction IH as [|c cs Hc _ IHcs]; [done|].
    rewrite fmap_cons in Hs. cbn [Zsum] in Hs.
    destruct (decide (label_count label c.2 = 0)); [apply IHcs; lia|by apply Hc].
Qed.

End Analyzer.

(** ** The statistics, claim by claim *)

(** C3 (amended): analyzing the object [{x: null}] gives [null_values = 1];
    analyzing the array [[null]] gives [null_values = 0] while the null is
    counted once in [type_counts], under the label NoneType (the name of its
    Python type).  In general [null_values] is the number of object fields
    whose value is null, and the NoneType count is the number of null nodes. *)
Theorem null_values_counts_object_fields :
  null_values (analyze_structure (JObject [("x", JNull)])) = 1
  ∧ null_values (analyze_structure (JArray [JNull])) = 0
  ∧ Counter.get (type_counts (analyze_structure (JArray [JNull]))) "NoneType" = 1
  ∧ ∀ v, null_values (analyze_structure v) = null_field_count v
         ∧ Counter.get (type_counts (analyze_structure v)) "NoneType"
           = label_count "NoneType" v.
Proof.
  unfold analyze_structure.
  rewrite !null_values_spec, type_counts_spec. repeat split; try reflexivity.
  - apply null_values_spec.
  - apply type_counts_spec.
Qed.

(** C3, as stated, fails: in the statistics of [[null]] the label null has
    count 0. *)
Lemma null_label_not_counted :
  Counter.get (type_counts (analyze_structure (JArray [JNull]))) "null" = 0.
Proof. unfold analyze_structure. by rewrite type_counts_spec. Qed.

(** C4 (amended): every label with a nonzero count in [type_counts] is one of
    array, str, int, float, bool, NoneType. *)
Theorem type_counts_labels (v : Value) (label : string) :
  Counter.get (type_counts (analyze_structure v)) label ≠ 0 →
  label ∈ type_labels.
Proof.
  unfold analyze_structure. rewrite type_counts_spec.
  apply label_count_labels.
Qed.

(** The string root [a] is counted under str, one of the labels. *)
Lemma type_counts_labels_witness :
  Counter.get (type_counts (analyze_structure (JString "a"))) "str" ≠ 0
  ∧ "str" ∈ type_labels.
Proof.
  assert (Counter.get (type_counts (analyze_structure (JString "a"))) "str" ≠ 0)
    as H by (vm_compute; discriminate).
  split; [exact H|exact (type_counts_labels (JString "a") "str" H)].
Defined.

(** C4, as stated, fails: a string is counted under str, which is not among
    the documented labels. *)
Lemma str_label_not_documented :
  Counter.get (type_counts (analyze_structure (JString "a"))) "str" = 1
  ∧ "str" ∉ documented_labels.
Proof.
  split; [by vm_compute|compute_done].
Qed.

(** C5: [max_depth] is never negative; it is 0 exactly for a scalar, an
    empty object and an empty array; a root array holding one scalar has
    [max_depth = 1]. *)
Theorem max_depth_zero_iff_leaf :
  (∀ v, 0 ≤ max_depth (analyze_structure v))
  ∧ (∀ v, max_depth (analyze_structure v) = 0 ↔ is_leaf v = true)
  ∧ (∀ s, is_scalar s = true → max_depth (analyze_structure (JArray [s])) = 1).
Proof.
  assert (∀ v, max_depth (analyze_structure v) = height v) as Hd.
  { intros v. unfold analyze_structure. rewrite depth_spec by done.
    pose proof (height_nonneg v). lia. }
  split; [|split].
  - intros v. rewrite Hd. apply height_nonneg.
  - intros v. rewrite Hd. apply height_leaf.
  - intros s Hs. rewrite Hd. by destruct s.
Qed.

(** C6: the counts of all labels except array, plus [arrays], plus
    [objects], add up to the number of nodes; an array node is counted in
    [arrays] and again under the label array; an object node is counted in
    [objects] and under no label. *)
Theorem census_is_node_count (v : Value) :
  let s := analyze_structure v in
  Counter.total not_array (type_counts s) + arrays s + objects s = node_count v
  ∧ arrays s = array_count v
  ∧ Counter.get (type_counts s) "array" = array_count v
  ∧ objects s = object_count v
  ∧ Counter.get (type_counts s) "object" = 0
  ∧ Counter.get (type_counts s) "dict" = 0
  ∧ ∀ label, Counter.get (type_counts s) label = label_count label v.
Proof.
  assert (∀ label, label ∉ type_labels → label_count label v = 0) as Hno.
  { intros label Hl. destruct (decide (label_count label v = 0)); [done|].
    by destruct Hl; apply (label_count_labels label v). }
  cbv zeta. unfold analyze_structure.
  repeat split.
  - apply census_spec.
  - apply arrays_spec.
  - rewrite type_counts_spec. clear Hno.
    induction v as [| | | | |items IH|fields IH] using Value_nested_ind;
      try reflexivity; cbn [label_count array_count].
    + rewrite decide_True by done. f_equal. by apply Zsum_ext.
    + by apply Zsum_ext.
  - apply objects_spec.
  - rewrite type_counts_spec. apply Hno. compute_done.
  - rewrite type_counts_spec. apply Hno. compute_done.
  - intros label. apply type_counts_spec.
Qed.

(** ** Facts about the validator *)

Section Validator.
Variable fields : list (string * Value).

Lemma dict_contains_spec key :
  dict_contains fields key = true ↔ key ∈ fields.*1.
Proof. unfold dict_contains. by rewrite bool_decide_eq_true. Qed.

(** The loop appends to both lists, clears [valid] on a missing key and
    leaves [error] alone. *)
Lemma validate_loop keys results :
  fold_left (validate_key fields) keys results
  = {| valid := valid results && forallb (dict_contains fields) keys;
       missing_keys :=
         missing_keys results ++ filter (λ k, k ∉ fields.*1) keys;
       found_keys := found_keys results ++ filter (λ k, k ∈ fields.*1) keys;
       error := error results |}.
Proof.
  revert results.
  induction keys as [|key keys IH]; intros [v mk fk e]; simpl.
  - by rewrite andb_true_r, !app_nil_r.
  - rewrite IH, !filter_cons. unfold validate_key, dict_contains.
    case_bool_decide as Hk; simpl.
    + repeat case_decide; try contradiction. by rewrite <- !app_assoc.
    + repeat case_decide; try contradiction.
      by rewrite andb_false_r, <- !app_assoc.
Qed.

Lemma all_found_iff_none_missing keys :
  forallb (dict_contains fields) keys = true
  ↔ filter (λ k, k ∉ fields.*1) keys = [].
Proof.
  induction keys as [|key keys IH]; simpl; [done|].
  rewrite filter_cons, andb_true_iff, IH, dict_contains_spec.
  case_decide as Hk.
  - split; [by intros [? _]|discriminate].
  - split; [by intros [_ ?]|].
    intros ->. split; [|done]. by destruct (decide (key ∈ fields.*1)).
Qed.

End Validator.

(** ** The validator, claim by claim *)

(** C2 (amended): for a root that is not an object, whatever the required
    keys, the result is [valid = false] with both key lists empty and the
    error text Root must be an object for schema validation; the function
    returns this record and raises nothing. *)
Theorem validate_non_object (data : Value) (required_keys : list string) :
  is_dict data = false →
  validate_schema data required_keys
  = {| valid := false; missing_keys := []; found_keys := [];
       error := Some "Root must be an object for schema validation" |}.
Proof. by destruct data. Qed.

(** The array root [[1, 2]] with the required key a. *)
Lemma validate_non_object_witness :
  is_dict (JArray [JInt 1; JInt 2]) = false
  ∧ validate_schema (JArray [JInt 1; JInt 2]) ["a"]
    = {| valid := false; missing_keys := []; found_keys := [];
         error := Some "Root must be an object for schema validation" |}.
Proof.
  split; [reflexivity|].
  exact (validate_non_object (JArray [JInt 1; JInt 2]) ["a"] eq_refl).
Defined.

(** C2, as stated, fails: the error text for an array root is not
    root must be an object. *)
Lemma validate_error_text_differs :
  validate_schema (JArray [JInt 1; JInt 2]) ["a"]
  ≠ {| valid := false; missing_keys := []; found_keys := [];
       error := Some "root must be an object" |}.
Proof. discriminate. Qed.

(** C8: for an object root the required keys are split, in their given order
    and without removing repeats, into the keys of the object
    ([found_keys]) and the others ([missing_keys]); [valid] holds exactly when
    nothing is missing; for [{a: 1}] and the keys a, b the result is
    [valid = false], [found_keys = [a]], [missing_keys = [b]]. *)
Theorem validate_partitions_keys :
  (∀ fields required_keys,
     let results := validate_schema (JObject fields) required_keys in
     found_keys results = filter (λ k, k ∈ fields.*1) required_keys
     ∧ missing_keys results = filter (λ k, k ∉ fields.*1) required_keys
     ∧ (valid results = true ↔ missing_keys results = []))
  ∧ validate_schema (JObject [("a", JInt 1)]) ["a"; "b"]
    = {| valid := false; missing_keys := ["b"]; found_keys := ["a"];
         error := None |}.
Proof.
  split; [|by vm_compute].
  intros fields required_keys. cbv zeta. unfold validate_schema.
  rewrite validate_loop. simpl.
  repeat split; try apply all_found_iff_none_missing; done.
Qed.

(** C10: the result for an object root carries no error, also when keys are
    missing and [valid] is false; an error is present only for a root that is
    not an object. *)
Theorem validate_error_only_for_non_object :
  (∀ fields required_keys,
     error (validate_schema (JObject fields) required_keys) = None)
  ∧ (∀ data required_keys,
       error (validate_schema data required_keys) = None ↔ is_dict data = true)
  ∧ (let results := validate_schema (JObject [("a", JInt 1)]) ["a"; "b"] in
     valid results = false ∧ error results = None).
Proof.
  assert (∀ fields required_keys,
            error (validate_schema (JObject fields) required_keys) = None) as H.
  { intros. unfold validate_schema. by rewrite validate_loop. }
  split; [exact H|split].
  - intros [] ?; by rewrite ?H.
  - by vm_compute.
Qed.

(** ** Facts about the duplicate finder *)

Section Duplicates.

Lemma first_index_from_bounds key arr idx first :
  first_index_from key arr idx = Some first →
  idx ≤ first < idx + Z.of_nat (length arr).
Proof.
  revert idx. induction arr as [|item arr IH]; intros idx; simpl; [done|].
  case_decide.
  - intros [= ->]. lia.
  - intros Hf. apply IH in Hf. lia.
Qed.

Lemma first_index_from_app key pre rest idx :
  first_index_from key (pre ++ rest) idx
  = match first_index_from key pre idx with
    | Some first => Some first
    | None => first_index_from key rest (idx + Z.of_nat (length pre))
    end.
Proof.
  revert idx. induction pre as [|item pre IH]; intros idx; simpl.
  - by rewrite Z.add_0_r.
  - case_decide; [done|]. rewrite IH. destruct (first_index_from key pre _);
      [done|]. f_equal. lia.
Qed.

Lemma seen_after_nil : seen_after [] ∅.
Proof. intros key. by rewrite lookup_empty. Qed.

Lemma seen_after_repeat pre seen item first :
  seen_after pre seen →
  seen !! item_str item = Some first →
  seen_after (pre ++ [item]) seen.
Proof.
  intros Hs Hi key. unfold first_index. rewrite first_index_from_app.
  rewrite <- (Hs key : _ = first_index_from key pre 0).
  destruct (seen !! key) eqn:Hk; [done|]. simpl.
  case_decide; [congruence|done].
Qed.

Lemma seen_after_fresh pre seen item :
  seen_after pre seen →
  seen !! item_str item = None →
  seen_after (pre ++ [item])
             (<[item_str item := Z.of_nat (length pre)]> seen).
Proof.
  intros Hs Hi key. unfold first_index. rewrite first_index_from_app.
  rewrite <- (Hs key : _ = first_index_from key pre 0). simpl.
  destruct (decide (item_str item = key)) as [<-|Hne].
  - by rewrite lookup_insert_eq, Hi.
  - rewrite lookup_insert_ne by done. by destruct (seen !! key).
Qed.

Lemma check_items_spec path rest pre seen duplicates :
  seen_after pre seen →
  check_items path rest (Z.of_nat (length pre)) seen duplicates
  = duplicates
    ++ repeats_from path (pre ++ rest) rest (Z.of_nat (length pre)).
Proof.
  revert pre seen duplicates.
  induction rest as [|item rest IH]; intros pre seen duplicates Hs; simpl.
  - by rewrite app_nil_r.
  - unfold first_index. rewrite first_index_from_app. simpl.
    rewrite decide_True by done.
    rewrite <- (Hs (item_str item) : _ = first_index_from _ pre 0).
    assert (∀ seen' duplicates',
              seen_after (pre ++ [item]) seen' →
              check_items path rest (Z.of_nat (length pre) + 1) seen'
                duplicates'
              = duplicates'
                ++ repeats_from path (pre ++ item :: rest) rest
                     (Z.of_nat (length pre) + 1)) as IH'.
    { intros seen' duplicates' Hs'.
      specialize (IH (pre ++ [item]) seen' duplicates' Hs').
      rewrite length_app, Nat2Z.inj_add in IH. simpl in IH.
      by replace ((pre ++ [item]) ++ rest) with (pre ++ item :: rest) in IH
        by (by rewrite <- app_assoc). }
    destruct (seen !! item_str item) as [first|] eqn:Hi.
    + rewrite IH' by eauto using seen_after_repeat.
      assert (first < Z.of_nat (length pre)).
      { rewrite (Hs (item_str item)) in Hi.
        apply first_index_from_bounds in Hi. lia. }
      rewrite decide_True by done. by rewrite <- app_assoc.
    + rewrite IH' by eauto using seen_after_fresh.
      rewrite decide_False by lia. done.
Qed.

Lemma check_array_spec node path duplicates :
  check_array node path duplicates = duplicates ++ array_records path node.
Proof.
  destruct node; simpl; try by rewrite app_nil_r.
  apply (check_items_spec path items []), seen_after_nil.
Qed.

Lemma repeats_from_seconds path arr rest idx :
  Forall (λ r, idx ≤ (indices r).2) (repeats_from path arr rest idx)
  ∧ StronglySorted Z.lt
      ((λ r, (indices r).2) <$> repeats_from path arr rest idx).
Proof.
  revert idx. induction rest as [|item rest IH]; intros idx; simpl.
  - split; constructor.
  - destruct (IH (idx + 1)) as [Hge Hsorted].
    assert (Forall (λ r, idx < (indices r).2)
              (repeats_from path arr rest (idx + 1))) as Hgt.
    { eapply Forall_impl; [exact Hge|]. simpl. intros. lia. }
    destruct (first_index (item_str item) arr) as [first|]; simpl;
      [case_decide; simpl|].
    + split.
      * constructor; [simpl; lia|].
        eapply Forall_impl; [exact Hgt|]. simpl. intros. lia.
      * constructor; [done|]. by apply Forall_fmap.
    + split; [|done]. eapply Forall_impl; [exact Hgt|]. simpl. intros. lia.
    + split; [|done]. eapply Forall_impl; [exact Hgt|]. simpl. intros. lia.
Qed.

Lemma repeats_from_firsts p pre rest :
  Forall (λ r, path r = p
               ∧ first_index (item_str (value r)) (pre ++ rest)
                 = Some (indices r).1
               ∧ (indices r).1 < (indices r).2
               ∧ (pre ++ rest) !! Z.to_nat (indices r).2 = Some (value r))
         (repeats_from p (pre ++ rest) rest (Z.of_nat (length pre))).
Proof.
  revert pre. induction rest as [|item rest IH]; intros pre; simpl.
  - constructor.
  - specialize (IH (pre ++ [item])).
    rewrite length_app, Nat2Z.inj_add, <- app_assoc in IH. simpl in IH.
    destruct (first_index (item_str item) (pre ++ item :: rest))
      as [first|] eqn:Hf; simpl; [case_decide; simpl|]; try apply IH.
    constructor; [|apply IH]. simpl. repeat split; try done.
    rewrite Nat2Z.id. by apply list_lookup_middle.
Qed.

Lemma for_enumerate_traverse
    (F : string → list Step * Value → list DuplicateRecord) path items :
  (∀ p s sn, F p (below s sn) = F (p +:+ step_text s) sn) →
  Forall (λ item, ∀ p duplicates,
            traverse item p duplicates
            = duplicates ++ (preorder item ≫= F p)) items →
  ∀ idx duplicates,
    for_enumerate
      (λ idx item duplicates,
         traverse item (path +:+ "[" +:+ pretty idx +:+ "]") duplicates)
      items idx duplicates
    = duplicates
      ++ (mjoin (map_numbered
                   (λ idx item, below (AtIndex idx) <$> preorder item)
                   items idx)
          ≫= F path).
Proof.
  intros HF. induction 1 as [|item items Hitem _ IH]; intros idx duplicates.
  - simpl. by rewrite app_nil_r.
  - cbn [for_enumerate map_numbered mjoin list_join].
    rewrite IH, Hitem, bind_app, list_fmap_bind, <- app_assoc.
    do 2 f_equal. apply list_bind_ext; [|done]. intros sn.
    symmetry. apply (HF path (AtIndex idx)).
Qed.

Lemma fold_left_traverse
    (F : string → list Step * Value → list DuplicateRecord) path
    (fields : list (string * Value)) :
  (∀ p s sn, F p (below s sn) = F (p +:+ step_text s) sn) →
  Forall (λ kv, ∀ p duplicates,
            traverse kv.2 p duplicates
            = duplicates ++ (preorder kv.2 ≫= F p)) fields →
  ∀ duplicates,
    fold_left
      (λ duplicates kv, traverse kv.2 (path +:+ "." +:+ kv.1) duplicates)
      fields duplicates
    = duplicates
      ++ (mjoin ((λ kv, below (AtKey kv.1) <$> preorder kv.2) <$> fields)
          ≫= F path).
Proof.
  intros HF. induction 1 as [|kv fields Hkv _ IH]; intros duplicates.
  - simpl. by rewrite app_nil_r.
  - rewrite fmap_cons. cbn [fold_left mjoin list_join].
    rewrite IH, Hkv, bind_app, list_fmap_bind, <- app_assoc.
    do 2 f_equal. apply list_bind_ext; [|done]. intros sn.
    symmetry. apply (HF path (AtKey kv.1)).
Qed.

Lemma traverse_spec v path duplicates :
  traverse v path duplicates
  = duplicates ++ (preorder v ≫= node_records path).
Proof.
  revert path duplicates.
  induction v as [| | | | |items IH|fields IH] using Value_nested_ind;
    intros path duplicates; try (simpl; by rewrite app_nil_r).
  - cbn [traverse preorder]. rewrite bind_cons.
    rewrite (for_enumerate_traverse node_records) by done.
    rewrite check_array_spec, <- app_assoc. done.
  - cbn [traverse preorder]. rewrite bind_cons.
    rewrite (fold_left_traverse node_records) by done.
    done.
Qed.

End Duplicates.

(** ** The duplicate finder, claim by claim *)

(** C9: for the root array [[1, 2, 1]] there is exactly one record, with
    path root, value 1 and indices (0, 2); for every root array, each record
    of the array carries the path root, the value standing at its second
    index, and as first index the index of the first element with the same
    key, which lies before the second. *)
Theorem repeat_pairs_with_first_occurrence :
  find_duplicates (JArray [JInt 1; JInt 2; JInt 1])
  = [{| path := "root"; value := JInt 1; indices := (0, 2) |}]
  ∧ ∀ items,
      Forall (λ r, path r = "root"
                   ∧ first_index (item_str (value r)) items = Some (indices r).1
                   ∧ (indices r).1 < (indices r).2
                   ∧ items !! Z.to_nat (indices r).2 = Some (value r))
             (check_array (JArray items) "root" []).
Proof.
  split; [by vm_compute|].
  intros items. rewrite check_array_spec. simpl.
  apply (repeats_from_firsts "root" [] items).
Qed.

(** C7: the records of a value are the records of its nodes taken in
    pre-order, each node checked under the text of its path; the records of
    one array come with strictly increasing second index and all carry the
    path of the array; the text of a path is root followed, step by step, by
    [[index]] for an array element and [.key] for an object field. *)
Theorem records_follow_preorder :
  (∀ v, find_duplicates v
        = preorder v ≫= (λ sn, check_array sn.2 (path_text sn.1) []))
  ∧ (∀ node p,
       StronglySorted Z.lt ((λ r, (indices r).2) <$> check_array node p [])
       ∧ Forall (λ r, path r = p) (check_array node p []))
  ∧ path_text [] = "root"
  ∧ (∀ steps idx,
       path_text (steps ++ [AtIndex idx])
       = path_text steps +:+ "[" +:+ pretty idx +:+ "]")
  ∧ (∀ steps key,
       path_text (steps ++ [AtKey key]) = path_text steps +:+ "." +:+ key).
Proof.
  repeat split.
  - intros v. unfold find_duplicates. rewrite traverse_spec. simpl.
    apply list_bind_ext; [|done]. intros sn.
    by rewrite check_array_spec.
  - rewrite check_array_spec. simpl. destruct node; try constructor.
    apply repeats_from_seconds.
  - rewrite check_array_spec. simpl. destruct node; try constructor.
    eapply Forall_impl; [apply (repeats_from_firsts p [] items)|].
    simpl. by intros r [? _].
  - intros steps idx. unfold path_text, path_from. by rewrite fold_left_app.
  - intros steps key. unfold path_text, path_from. by rewrite fold_left_app.
Qed.

(** The key of a container is its Python text, the key of a scalar its JSON
    text, so 1, 1.0, true and the list [[1]] are all told apart. *)
Example item_str_samples :
  item_str <$> [JInt 1; JFloat (FFinite "1.0"); JBool true; JNull;
                JArray [JInt 1; JNull; JBool true]]
  = ["1"; "1.0"; "true"; "null"; "[1, None, True]"].
Proof. reflexivity. Qed.

(** A repeat inside a nested array is reported under the path of that
    array. *)
Example nested_path_sample :
  find_duplicates
    (JObject [("items", JArray [JInt 7; JInt 8;
                                JObject [("tags", JArray [JInt 3; JInt 3])]])])
  = [{| path := "root.items[2].tags"; value := JInt 3; indices := (0, 1) |}].
Proof. by vm_compute. Qed.

Section Repeated_value.

Lemma scalar_items_no_records p items idx :
  Forall (λ item, is_scalar item = true) items →
  mjoin (map_numbered (λ idx item, below (AtIndex idx) <$> preorder item)
                      items idx)
    ≫= node_records p
  = [].
Proof.
  intros Hs. revert idx.
  induction Hs as [|item items Hitem _ IH]; intros idx; [done|].
  cbn [map_numbered mjoin list_join]. rewrite bind_app, IH, app_nil_r.
  by destruct item.
Qed.

Lemma repeats_of_one arr m k :
  first_index (item_str (JInt 1)) arr = Some 0 →
  (0 < k)%nat →
  repeats_from "root" arr (replicate m (JInt 1)) (Z.of_nat k)
  = (λ j, repeat_of_one 0 (Z.of_nat j)) <$> seq k m.
Proof.
  intros Hfirst. revert k. induction m as [|m IH]; intros k Hk; [done|].
  cbn [replicate repeats_from seq]. rewrite fmap_cons, Hfirst.
  rewrite decide_True by lia.
  replace (Z.of_nat k + 1) with (Z.of_nat (S k)) by lia.
  rewrite IH by lia. done.
Qed.

End Repeated_value.

(** C1 (amended): for the root array [[1, 1, 1]] there are exactly two
    records, pairing the indices (0, 1) and (0, 2); in general a root array
    of [n + 1] copies of 1 gives [n] records, one for each later copy, each
    paired with index 0. *)
Theorem every_repeat_is_reported :
  find_duplicates (JArray [JInt 1; JInt 1; JInt 1])
  = [repeat_of_one 0 1; repeat_of_one 0 2]
  ∧ ∀ n, find_duplicates (JArray (replicate (S n) (JInt 1)))
         = (λ j, repeat_of_one 0 (Z.of_nat j)) <$> seq 1 n.
Proof.
  assert (∀ n, find_duplicates (JArray (replicate (S n) (JInt 1)))
               = (λ j, repeat_of_one 0 (Z.of_nat j)) <$> seq 1 n) as Hn.
  { intros n. unfold find_duplicates. rewrite traverse_spec.
    cbn [preorder app]. rewrite bind_cons.
    rewrite scalar_items_no_records by (by apply Forall_replicate).
    rewrite app_nil_r. unfold node_records.
    cbn [array_records path_from fst snd fold_left].
    cbn [replicate repeats_from].
    assert (first_index (item_str (JInt 1)) (JInt 1 :: replicate n (JInt 1))
            = Some 0) as Hfirst.
    { unfold first_index. cbn [first_index_from]. by rewrite decide_True. }
    rewrite Hfirst, decide_False by lia.
    change (0 + 1) with (Z.of_nat 1).
    by rewrite (repeats_of_one _ n 1) by (done || lia). }
  split; [exact (Hn 2%nat)|exact Hn].
Qed.

(** C1, as stated, fails: the third 1 of [[1, 1, 1]] gives a second record,
    with indices (0, 2). *)
Lemma third_occurrence_is_reported :
  length (find_duplicates (JArray [JInt 1; JInt 1; JInt 1])) = 2%nat
  ∧ (0, 2) ∈ indices <$> find_duplicates (JArray [JInt 1; JInt 1; JInt 1]).
Proof. split; [by vm_compute|]. vm_compute. by repeat constructor. Qed.


(** ** More about the statistics *)

Section Analyzer_more.
Import Counter CounterFacts.

Lemma additive_total_keys : additive total_keys.
Proof. by intros [] []. Qed.

Lemma total_keys_spec v d m :
  total_keys (recursive_analyze v d m) = key_count v.
Proof.
  revert d m.
  induction v as [| | | | |items IH|fields IH] using Value_nested_ind;
    intros d m; try reflexivity; cbn [recursive_analyze key_count].
  - rewrite (fold_merge_items total_keys) by apply additive_total_keys.
    simpl. apply Zsum_ext. eapply Forall_impl; [exact IH|]. by intros.
  - rewrite (fold_merge_fields total_keys (λ _, 0)
               (λ v, recursive_analyze v (d + 1) (Z.max m (d + 1)))); simpl;
      [|apply additive_total_keys|by apply count_null_silent].
    f_equal. apply Zsum_ext. eapply Forall_impl; [exact IH|]. simpl.
    intros ? ->. done.
Qed.

Lemma Zsum_nonneg {A} (f : A → Z) xs :
  Forall (λ x, 0 ≤ f x) xs → 0 ≤ Zsum (f <$> xs).
Proof.
  induction 1 as [|x xs Hx _ IH]; [done|]. rewrite fmap_cons. cbn [Zsum]. lia.
Qed.

Lemma Zsum_le {A} (f g : A → Z) xs :
  Forall (λ x, f x ≤ g x) xs → Zsum (f <$> xs) ≤ Zsum (g <$> xs).
Proof.
  induction 1 as [|x xs Hx _ IH]; [done|]. rewrite !fmap_cons. cbn [Zsum]. lia.
Qed.

Lemma Zsum_le_length {A} (f g : A → Z) xs :
  Forall (λ x, f x ≤ 1 + g x) xs →
  Zsum (f <$> xs) ≤ Z.of_nat (length xs) + Zsum (g <$> xs).
Proof.
  induction 1 as [|x xs Hx _ IH]; [done|].
  rewrite !fmap_cons. cbn [Zsum length]. lia.
Qed.

Lemma length_Zsum_le {A} (f g : A → Z) xs :
  Forall (λ x, 1 + f x ≤ g x) xs →
  Z.of_nat (length xs) + Zsum (f <$> xs) ≤ Zsum (g <$> xs).
Proof.
  induction 1 as [|x xs Hx _ IH]; [done|].
  rewrite !fmap_cons. cbn [Zsum length]. lia.
Qed.

Lemma null_field_count_bounds v :
  0 ≤ null_field_count v ≤ key_count v ∧ key_count v + 1 ≤ node_count v.
Proof.
  induction v as [| | | | |items IH|fields IH] using Value_nested_ind;
    cbn [null_field_count key_count node_count]; try lia.
  - repeat split.
    + apply Zsum_nonneg. eapply Forall_impl; [exact IH|]. simpl. lia.
    + apply Zsum_le. eapply Forall_impl; [exact IH|]. simpl. lia.
    + assert (Zsum (key_count <$> items) ≤ Zsum (node_count <$> items));
        [|lia].
      apply Zsum_le. eapply Forall_impl; [exact IH|]. simpl. lia.
  - repeat split.
    + apply Zsum_nonneg. eapply Forall_impl; [exact IH|]. simpl.
      intros kv ?. destruct (is_None kv.2); lia.
    + apply Zsum_le_length. eapply Forall_impl; [exact IH|]. simpl.
      intros kv ?. destruct (is_None kv.2); lia.
    + assert (Z.of_nat (length fields)
              + Zsum ((λ kv, key_count kv.2) <$> fields)
              ≤ Zsum ((λ kv, node_count kv.2) <$> fields)); [|lia].
      apply length_Zsum_le. eapply Forall_impl; [exact IH|]. simpl. lia.
Qed.

(** *** The counter holds no zero *)

Lemma all_positive_incr label c :
  all_positive c → all_positive (incr label c).
Proof.
  intros Hc l n. unfold incr, get. rewrite lookup_insert.
  case_decide; [|apply Hc]. intros [= <-].
  destruct (c !! label) as [k|] eqn:Hk; simpl; [|lia].
  apply Hc in Hk. lia.
Qed.

Lemma all_positive_update c v :
  all_positive c → all_positive v → all_positive (update c v).
Proof.
  intros Hc Hv l n. unfold update. rewrite lookup_union_with.
  destruct (c !! l) as [a|] eqn:Ha, (v !! l) as [b|] eqn:Hb; simpl;
    try done; intros [= <-]; try (apply Hc in Ha); try (apply Hv in Hb); lia.
Qed.

Lemma all_positive_count_null v s :
  all_positive (type_counts s) → all_positive (type_counts (count_null v s)).
Proof. unfold count_null. by destruct (is_None v). Qed.

Lemma all_positive_fold {A} (f : Stats → A → Stats) xs st :
  Forall (λ x, ∀ s, all_positive (type_counts s) →
                    all_positive (type_counts (f s x))) xs →
  all_positive (type_counts st) →
  all_positive (type_counts (fold_left f xs st)).
Proof.
  intros Hxs. revert st.
  induction Hxs as [|x xs Hx _ IH]; intros st Hst; simpl; [done|].
  by apply IH, Hx.
Qed.

Lemma type_counts_positive v d m :
  all_positive (type_counts (recursive_analyze v d m)).
Proof.
  assert (all_positive ∅) as Hempty by (intros l n; by rewrite lookup_empty).
  revert d m.
  induction v as [| | | | |items IH|fields IH] using Value_nested_ind;
    intros d m; cbn [recursive_analyze type_counts];
    try (by apply all_positive_incr).
  - apply all_positive_fold; [|by apply all_positive_incr].
    eapply Forall_impl; [exact IH|]. simpl. intros c Hc s Hs.
    by apply all_positive_update.
  - apply all_positive_fold; [|done].
    eapply Forall_impl; [exact IH|]. simpl. intros c Hc s Hs.
    apply all_positive_update; [by apply all_positive_count_null|done].
Qed.

End Analyzer_more.

(** X1: [total_keys] is the number of fields of all the objects in the tree,
    every object counted where it occurs. *)
Theorem total_keys_is_key_count (v : Value) :
  total_keys (analyze_structure v) = key_count v.
Proof. apply total_keys_spec. Qed.

(** X2: null values are counted among the keys: [null_values] lies between 0
    and [total_keys], and [total_keys] is less than the number of nodes. *)
Theorem null_values_within_total_keys (v : Value) :
  0 ≤ null_values (analyze_structure v) ≤ total_keys (analyze_structure v)
  ∧ total_keys (analyze_structure v) < node_count v.
Proof.
  unfold analyze_structure. rewrite null_values_spec, total_keys_spec.
  pose proof (null_field_count_bounds v). lia.
Qed.

(** X3: [type_counts] holds exactly the labels that occur in the tree, each
    with the number of its nodes, and holds no label with count 0. *)
Theorem type_counts_entries (v : Value) (label : string) :
  type_counts (analyze_structure v) !! label
  = if decide (label_count label v = 0) then None
    else Some (label_count label v).
Proof.
  unfold analyze_structure.
  pose proof (type_counts_spec label v 0 0) as Hget.
  pose proof (type_counts_positive v 0 0 label) as Hpos.
  unfold Counter.get in Hget.
  destruct (type_counts (recursive_analyze v 0 0) !! label) as [n|];
    simpl in Hget; subst.
  - specialize (Hpos _ eq_refl). rewrite decide_False by lia. done.
  - by rewrite decide_True.
Qed.

(** ** Depth and the paths of the nodes *)

Section Depth_of_nodes.

Lemma elem_of_map_numbered_join {A B} (f : Z → A → list B) xs idx y :
  y ∈ mjoin (map_numbered f xs idx)
  ↔ ∃ i x, xs !! i = Some x ∧ y ∈ f (idx + Z.of_nat i) x.
Proof.
  revert idx. induction xs as [|x xs IH]; intros idx.
  - simpl. split; [by intros ?%elem_of_nil|by intros (i & ? & ? & _)].
  - cbn [map_numbered mjoin list_join]. rewrite elem_of_app, IH. split.
    + intros [Hy|(i & x' & Hi & Hy)].
      * exists 0%nat, x. by rewrite Z.add_0_r.
      * exists (S i), x'. split; [done|].
        by replace (idx + Z.of_nat (S i)) with (idx + 1 + Z.of_nat i) by lia.
    + intros ([|i] & x' & Hi & Hy).
      * left. simpl in Hi. injection Hi as ->. by rewrite Z.add_0_r in Hy.
      * right. exists i, x'. split; [done|].
        by replace (idx + 1 + Z.of_nat i) with (idx + Z.of_nat (S i)) by lia.
Qed.

Lemma foldr_max_ge {A} (hf : A → Z) xs x :
  x ∈ xs → 1 + hf x ≤ foldr (λ x acc, Z.max (1 + hf x) acc) 0 xs.
Proof.
  induction 1 as [x xs|x y xs _ IH]; simpl; lia.
Qed.

Lemma foldr_max_attained {A} (hf : A → Z) xs :
  xs ≠ [] → Forall (λ x, 0 ≤ hf x) xs →
  ∃ x, x ∈ xs ∧ foldr (λ x acc, Z.max (1 + hf x) acc) 0 xs = 1 + hf x.
Proof.
  intros Hne Hxs. induction Hxs as [|x xs Hx Hxs IH]; [done|].
  destruct xs as [|y ys].
  - exists x. split; [left|]. simpl. lia.
  - destruct IH as (z & Hz & Hmax); [done|].
    cbn [foldr] in *.
    destruct (decide (1 + hf z ≤ 1 + hf x)).
    + exists x. split; [left|]. lia.
    + exists z. split; [by right|]. lia.
Qed.

Lemma preorder_depth_le v :
  Forall (λ sn, Z.of_nat (length sn.1) ≤ height v) (preorder v).
Proof.
  induction v as [| | | | |items IH|fields IH] using Value_nested_ind;
    try (by repeat constructor).
  - cbn [preorder]. constructor; [apply (height_nonneg (JArray items))|].
    apply Forall_forall.
    intros sn (i & item & Hi & Hsn)%elem_of_map_numbered_join.
    apply list_elem_of_fmap in Hsn as (sn' & -> & Hsn').
    assert (item ∈ items) as Hin by (by eapply list_elem_of_lookup_2).
    rewrite Forall_forall in IH. specialize (IH item Hin).
    rewrite Forall_forall in IH. specialize (IH sn' Hsn').
    pose proof (foldr_max_ge height items item Hin).
    cbn [height below fst length]. lia.
  - cbn [preorder]. constructor; [apply (height_nonneg (JObject fields))|].
    apply Forall_forall. intros sn (l & Hsn & Hl)%list_elem_of_join.
    apply list_elem_of_fmap in Hl as (kv & -> & Hin).
    apply list_elem_of_fmap in Hsn as (sn' & -> & Hsn').
    rewrite Forall_forall in IH. specialize (IH kv Hin).
    rewrite Forall_forall in IH. specialize (IH sn' Hsn').
    pose proof (foldr_max_ge (λ kv, height kv.2) fields kv Hin).
    cbn [height below fst length]. simpl in *. lia.
Qed.

Lemma preorder_depth_attained v :
  ∃ sn, sn ∈ preorder v ∧ Z.of_nat (length sn.1) = height v.
Proof.
  induction v as [| | | | |items IH|fields IH] using Value_nested_ind;
    try (eexists (_, _); split; [left|done]).
  - destruct (decide (items = [])) as [->|Hne].
    { eexists (_, _); split; [left|done]. }
    destruct (foldr_max_attained height items Hne) as (item & Hin & Hmax).
    { apply Forall_forall. intros. apply height_nonneg. }
    rewrite Forall_forall in IH. destruct (IH item Hin) as (sn' & Hsn' & Hlen).
    apply list_elem_of_lookup_1 in Hin as [i Hi].
    exists (below (AtIndex (0 + Z.of_nat i)) sn'). split.
    + cbn [preorder]. right. apply elem_of_map_numbered_join.
      exists i, item. split; [done|]. by apply list_elem_of_fmap_2.
    + cbn [height below fst length]. lia.
  - destruct (decide (fields = [])) as [->|Hne].
    { eexists (_, _); split; [left|done]. }
    destruct (foldr_max_attained (λ kv, height kv.2) fields Hne)
      as (kv & Hin & Hmax).
    { apply Forall_forall. intros. apply height_nonneg. }
    rewrite Forall_forall in IH. destruct (IH kv Hin) as (sn' & Hsn' & Hlen).
    exists (below (AtKey kv.1) sn'). split.
    + cbn [preorder]. right. apply list_elem_of_join.
      exists (below (AtKey kv.1) <$> preorder kv.2). split.
      * by apply list_elem_of_fmap_2.
      * by apply (list_elem_of_fmap_2
                    (λ kv, below (AtKey kv.1) <$> preorder kv.2)).
    + cbn [height below fst length]. lia.
Qed.

End Depth_of_nodes.

(** X4: [max_depth] is the number of steps from the root to a deepest node:
    no node lies deeper, and some node lies exactly that deep. *)
Theorem max_depth_is_deepest_node (v : Value) :
  Forall (λ sn, Z.of_nat (length sn.1) ≤ max_depth (analyze_structure v))
         (preorder v)
  ∧ ∃ sn, sn ∈ preorder v
          ∧ Z.of_nat (length sn.1) = max_depth (analyze_structure v).
Proof.
  assert (max_depth (analyze_structure v) = height v) as ->.
  { unfold analyze_structure. rewrite depth_spec by done.
    pose proof (height_nonneg v). lia. }
  split; [apply preorder_depth_le|apply preorder_depth_attained].
Qed.

(** ** The order of the children does not matter to the statistics *)

Section Order_independence.
Import Counter.

Lemma update_right_comm c a b : update (update c a) b = update (update c b) a.
Proof.
  apply map_eq. intros l. unfold update. rewrite !lookup_union_with.
  destruct (c !! l), (a !! l), (b !! l); simpl; try done; f_equal; lia.
Qed.

Lemma merge_right_comm s a b : merge (merge s a) b = merge (merge s b) a.
Proof.
  destruct s, a, b. unfold merge. simpl.
  f_equal; try lia. apply update_right_comm.
Qed.

Lemma count_null_merge v s c :
  count_null v (merge s c) = merge (count_null v s) c.
Proof.
  unfold count_null. destruct (is_None v); [|done].
  destruct s, c. unfold merge. simpl. f_equal. lia.
Qed.

Lemma count_null_comm v w s :
  count_null v (count_null w s) = count_null w (count_null v s).
Proof. unfold count_null. by destruct (is_None v), (is_None w). Qed.

Lemma fold_left_permutation {A S} (f : S → A → S) xs ys st :
  (∀ s x y, f (f s x) y = f (f s y) x) →
  xs ≡ₚ ys → fold_left f xs st = fold_left f ys st.
Proof.
  intros Hf Hp. revert st.
  induction Hp as [|x xs ys _ IH|x y xs|xs ys zs _ IH1 _ IH2]; intros st.
  - done.
  - simpl. apply IH.
  - simpl. by rewrite Hf.
  - by rewrite IH1.
Qed.

End Order_independence.

(** X5: the statistics of an array do not depend on the order of its
    elements. *)
Theorem array_order_irrelevant (items items' : list Value) :
  items ≡ₚ items' →
  analyze_structure (JArray items) = analyze_structure (JArray items').
Proof.
  intros Hp. unfold analyze_structure. cbn [recursive_analyze].
  apply fold_left_permutation; [|done].
  intros s x y. apply merge_right_comm.
Qed.

(** The arrays [[1, null]] and [[null, 1]]. *)
Lemma array_order_irrelevant_witness :
  [JInt 1; JNull] ≡ₚ [JNull; JInt 1]
  ∧ analyze_structure (JArray [JInt 1; JNull])
    = analyze_structure (JArray [JNull; JInt 1]).
Proof.
  assert ([JInt 1; JNull] ≡ₚ [JNull; JInt 1]) as Hp by apply perm_swap.
  split; [exact Hp|exact (array_order_irrelevant _ _ Hp)].
Defined.

(** X6: the statistics of an object do not depend on the order of its
    fields. *)
Theorem object_order_irrelevant (fields fields' : list (string * Value)) :
  fields ≡ₚ fields' →
  analyze_structure (JObject fields) = analyze_structure (JObject fields').
Proof.
  intros Hp. unfold analyze_structure. cbn [recursive_analyze].
  rewrite (Permutation_length Hp).
  apply fold_left_permutation; [|done].
  intros s x y.
  rewrite !count_null_merge, count_null_comm. apply merge_right_comm.
Qed.

(** The objects [{a: null, b: [1]}] and [{b: [1], a: null}]. *)
Lemma object_order_irrelevant_witness :
  [("a", JNull); ("b", JArray [JInt 1])]
    ≡ₚ [("b", JArray [JInt 1]); ("a", JNull)]
  ∧ analyze_structure (JObject [("a", JNull); ("b", JArray [JInt 1])])
    = analyze_structure (JObject [("b", JArray [JInt 1]); ("a", JNull)]).
Proof.
  assert ([("a", JNull); ("b", JArray [JInt 1])]
            ≡ₚ [("b", JArray [JInt 1]); ("a", JNull)]) as Hp
    by apply perm_swap.
  split; [exact Hp|exact (object_order_irrelevant _ _ Hp)].
Defined.

(** ** More about the validator *)

(** X7: for an object root every required key lands in exactly one of the two
    lists: [found_keys] followed by [missing_keys] is a rearrangement of
    [required_keys], so their lengths add up to the number of required
    keys. *)
Theorem validate_loses_no_key
    (fields : list (string * Value)) (required_keys : list string) :
  let results := validate_schema (JObject fields) required_keys in
  found_keys results ++ missing_keys results ≡ₚ required_keys
  ∧ (length (found_keys results) + length (missing_keys results))%nat
    = length required_keys.
Proof.
  cbv zeta. unfold validate_schema. rewrite validate_loop. simpl.
  pose proof (filter_app_complement (λ k, k ∈ fields.*1) required_keys) as Hp.
  split; [exact Hp|]. by rewrite <- length_app, Hp.
Qed.

(** X8: validation looks only at which keys the object has, never at the
    values or at the order of the fields: two objects with the same keys
    give the same result. *)
Theorem validate_depends_on_keys_only
    (fields fields' : list (string * Value)) (required_keys : list string) :
  (∀ key, key ∈ fields.*1 ↔ key ∈ fields'.*1) →
  validate_schema (JObject fields) required_keys
  = validate_schema (JObject fields') required_keys.
Proof.
  intros Hkeys. unfold validate_schema.
  assert (∀ results key,
            validate_key fields results key = validate_key fields' results key)
    as Hstep.
  { intros results key. unfold validate_key, dict_contains.
    by rewrite (bool_decide_ext _ _ (Hkeys key)). }
  generalize {| valid := true; missing_keys := []; found_keys := [];
                error := None |}.
  induction required_keys as [|key keys IH]; intros results; simpl; [done|].
  by rewrite Hstep, IH.
Qed.

(** The objects [{a: 1, b: 2}] and [{b: null, a: [null]}]. *)
Lemma validate_depends_on_keys_only_witness :
  (∀ key, key ∈ [("a", JInt 1); ("b", JInt 2)].*1
          ↔ key ∈ [("b", JNull); ("a", JArray [JNull])].*1)
  ∧ validate_schema (JObject [("a", JInt 1); ("b", JInt 2)]) ["a"; "c"]
    = validate_schema (JObject [("b", JNull); ("a", JArray [JNull])])
        ["a"; "c"].
Proof.
  assert (∀ key, key ∈ [("a", JInt 1); ("b", JInt 2)].*1
                 ↔ key ∈ [("b", JNull); ("a", JArray [JNull])].*1) as Hkeys.
  { intros key. simpl. rewrite !elem_of_cons, !elem_of_nil. tauto. }
  split; [exact Hkeys|].
  exact (validate_depends_on_keys_only _ _ ["a"; "c"] Hkeys).
Defined.

(** X9: validating against two lists of keys one after the other is
    validating against each and putting the results together: the key lists
    are appended and the result is valid when both are. *)
Theorem validate_app
    (fields : list (string * Value)) (keys keys' : list string) :
  let results := validate_schema (JObject fields) (keys ++ keys') in
  let first := validate_schema (JObject fields) keys in
  let second := validate_schema (JObject fields) keys' in
  valid results = valid first && valid second
  ∧ found_keys results = found_keys first ++ found_keys second
  ∧ missing_keys results = missing_keys first ++ missing_keys second.
Proof.
  cbv zeta. unfold validate_schema. rewrite !validate_loop. simpl.
  by rewrite forallb_app, !filter_app.
Qed.

(** ** More about the duplicate finder *)

Section Duplicates_more.

Lemma first_index_from_is_Some key arr idx :
  is_Some (first_index_from key arr idx) ↔ key ∈ item_str <$> arr.
Proof.
  revert idx. induction arr as [|item arr IH]; intros idx; simpl.
  - rewrite elem_of_nil. split; [by intros [? ?]|done].
  - rewrite elem_of_cons. case_decide as Hk.
    + split; [by left|by eexists].
    + rewrite IH. split; [by right|]. by intros [?|?].
Qed.

Lemma first_index_from_lookup key arr idx first :
  first_index_from key arr idx = Some first →
  ∃ x, arr !! Z.to_nat (first - idx) = Some x ∧ item_str x = key.
Proof.
  revert idx. induction arr as [|item arr IH]; intros idx; simpl; [done|].
  case_decide as Hk.
  - intros [= <-]. exists item. by rewrite Z.sub_diag.
  - intros Hf. pose proof (first_index_from_bounds _ _ _ _ Hf).
    destruct (IH _ Hf) as (x & Hx & Hkey). exists x. split; [|done].
    replace (Z.to_nat (first - idx)) with (S (Z.to_nat (first - (idx + 1))))
      by lia.
    done.
Qed.

Lemma first_index_from_before key arr idx i x :
  arr !! i = Some x → item_str x = key →
  ∃ first, first_index_from key arr idx = Some first
           ∧ first ≤ idx + Z.of_nat i.
Proof.
  revert idx i. induction arr as [|item arr IH]; intros idx i; [done|].
  simpl. case_decide as Hk.
  - intros _ _. exists idx. split; [done|lia].
  - destruct i as [|i]; simpl.
    + intros [= ->] ?. done.
    + intros Hx Hkey. destruct (IH (idx + 1) i Hx Hkey) as (f & Hf & Hle).
      exists f. split; [done|lia].
Qed.

(** The head of [repeats_from]: a record exactly when the key of the element
    already occurs among the elements before it. *)
Lemma first_index_seen pre item rest :
  first_index (item_str item) (pre ++ item :: rest)
  = match first_index (item_str item) pre with
    | Some first => Some first
    | None => Some (Z.of_nat (length pre))
    end.
Proof.
  unfold first_index. rewrite first_index_from_app. simpl.
  by rewrite decide_True.
Qed.

Lemma repeats_from_count p pre rest :
  (length (repeats_from p (pre ++ rest) rest (Z.of_nat (length pre)))
   + size (list_to_set (item_str <$> pre ++ rest) : gset string)
   = length rest + size (list_to_set (item_str <$> pre) : gset string))%nat.
Proof.
  revert pre. induction rest as [|item rest IH]; intros pre.
  - by rewrite app_nil_r.
  - specialize (IH (pre ++ [item])).
    rewrite length_app, Nat2Z.inj_add, <- app_assoc in IH. simpl in IH.
    rewrite (fmap_app _ pre [item]) in IH. cbn [fmap list_fmap] in IH.
    rewrite list_to_set_snoc_L in IH. change (Z.of_nat 1) with 1 in IH.
    cbn [repeats_from]. rewrite first_index_seen, length_app.
    destruct (first_index (item_str item) pre) as [first|] eqn:Hf.
    + pose proof (first_index_from_bounds _ _ _ _ Hf).
      rewrite decide_True by lia.
      assert (item_str item ∈ (list_to_set (item_str <$> pre) : gset string))
        as Hin.
      { apply elem_of_list_to_set, (first_index_from_is_Some _ _ 0).
        by eexists. }
      rewrite (union_comm_L _ {[item_str item]}) in IH.
      rewrite subseteq_union_1_L in IH by (by apply singleton_subseteq_l).
      simpl. lia.
    + rewrite decide_False by lia.
      assert (item_str item ∉ (list_to_set (item_str <$> pre) : gset string))
        as Hnin.
      { rewrite elem_of_list_to_set, <- (first_index_from_is_Some _ _ 0).
        unfold first_index in Hf. rewrite Hf. by intros [? ?]. }
      rewrite size_union, size_singleton in IH
        by (by apply disjoint_singleton_r).
      simpl. lia.
Qed.

Lemma repeats_from_nil_iff p pre rest :
  NoDup (item_str <$> pre) →
  repeats_from p (pre ++ rest) rest (Z.of_nat (length pre)) = []
  ↔ NoDup (item_str <$> pre ++ rest).
Proof.
  revert pre. induction rest as [|item rest IH]; intros pre Hpre.
  - rewrite app_nil_r. simpl. done.
  - specialize (IH (pre ++ [item])).
    rewrite length_app, Nat2Z.inj_add, <- app_assoc in IH. simpl in IH.
    cbn [repeats_from]. rewrite first_index_seen.
    destruct (first_index (item_str item) pre) as [first|] eqn:Hf.
    + pose proof (first_index_from_bounds _ _ _ _ Hf).
      rewrite decide_True by lia. split; [done|].
      rewrite fmap_app, NoDup_app. intros (_ & Hdisj & _).
      destruct (Hdisj (item_str item)).
      * apply (first_index_from_is_Some _ _ 0). by eexists.
      * rewrite fmap_cons. left.
    + rewrite decide_False by lia. simpl. apply IH.
      rewrite fmap_app. apply NoDup_app. split; [done|]. split.
      * intros key Hkey ->%list_elem_of_singleton.
        apply (first_index_from_is_Some _ _ 0) in Hkey as [? Hkey].
        unfold first_index in Hf. congruence.
      * apply NoDup_singleton.
Qed.

Lemma repeats_from_complete p arr rest idx k y first :
  rest !! k = Some y →
  first_index (item_str y) arr = Some first →
  first < idx + Z.of_nat k →
  {| path := p; value := y; indices := (first, idx + Z.of_nat k) |}
    ∈ repeats_from p arr rest idx.
Proof.
  revert idx k. induction rest as [|item rest IH]; intros idx k; [done|].
  cbn [repeats_from]. rewrite elem_of_app. destruct k as [|k].
  - intros [= ->] -> Hlt. left. rewrite decide_True by lia.
    rewrite Z.add_0_r. left.
  - intros Hy Hf Hlt. right.
    replace (idx + Z.of_nat (S k)) with (idx + 1 + Z.of_nat k) by lia.
    apply IH; [done..|lia].
Qed.

End Duplicates_more.

Section No_arrays.

Lemma array_count_nonneg v : 0 ≤ array_count v.
Proof.
  induction v as [| | | | |items IH|fields IH] using Value_nested_ind;
    cbn [array_count]; try lia.
  - pose proof (Zsum_nonneg array_count items IH). lia.
  - by apply (Zsum_nonneg (λ kv, array_count kv.2)).
Qed.

Lemma Zsum_zero {A} (f : A → Z) xs :
  Forall (λ x, 0 ≤ f x) xs → Zsum (f <$> xs) = 0 → Forall (λ x, f x = 0) xs.
Proof.
  induction 1 as [|x xs Hx Hxs IH]; [done|]. rewrite fmap_cons. cbn [Zsum].
  pose proof (Zsum_nonneg f xs Hxs). intros Hs.
  constructor; [lia|apply IH; lia].
Qed.

Lemma traverse_no_arrays v :
  array_count v = 0 → ∀ p duplicates, traverse v p duplicates = duplicates.
Proof.
  induction v as [| | | | |items IH|fields IH] using Value_nested_ind;
    cbn [array_count]; try done.
  - pose proof (Zsum_nonneg array_count items) as Hs. intros Hz.
    assert (0 ≤ Zsum (array_count <$> items)); [|lia].
    apply Hs, Forall_forall. intros. apply array_count_nonneg.
  - intros Hz%Zsum_zero p;
      [|apply Forall_forall; intros; apply array_count_nonneg].
    cbn [traverse]. induction IH as [|kv fields Hkv _ IHfields]; [done|].
    apply Forall_cons_1 in Hz as [Hkv0 Hz]. intros duplicates. simpl.
    rewrite Hkv by done. by apply IHfields.
Qed.

End No_arrays.

(** X10: a value without arrays, whatever objects and scalars it is made of,
    gives no record. *)
Theorem no_arrays_no_records (v : Value) :
  array_count v = 0 → find_duplicates v = [].
Proof. intros Hz. by apply traverse_no_arrays. Qed.

(** The object [{a: 1, b: {c: 1}}], whose two 1s are no duplicates. *)
Lemma no_arrays_no_records_witness :
  array_count (JObject [("a", JInt 1); ("b", JObject [("c", JInt 1)])]) = 0
  ∧ find_duplicates (JObject [("a", JInt 1); ("b", JObject [("c", JInt 1)])])
    = [].
Proof.
  split; [reflexivity|].
  exact (no_arrays_no_records
           (JObject [("a", JInt 1); ("b", JObject [("c", JInt 1)])]) eq_refl).
Defined.

(** X11: an array gives one record for each element beyond the first of its
    key: the number of its own records plus the number of distinct keys is
    the number of its elements. *)
Theorem array_record_count (items : list Value) (p : string) :
  (length (check_array (JArray items) p [])
   + size (list_to_set (item_str <$> items) : gset string)
   = length items)%nat.
Proof.
  rewrite check_array_spec. simpl.
  pose proof (repeats_from_count p [] items) as Hc.
  change (item_str <$> []) with (@nil string) in Hc.
  rewrite list_to_set_nil, size_empty in Hc. simpl in Hc.
  change (Z.of_nat 0) with 0 in Hc. lia.
Qed.

(** X12: an array gives no record of its own exactly when the keys of its
    elements are pairwise distinct; in particular the empty array gives
    none. *)
Theorem array_records_nil_iff (items : list Value) (p : string) :
  check_array (JArray items) p [] = [] ↔ NoDup (item_str <$> items).
Proof.
  rewrite check_array_spec. simpl.
  apply (repeats_from_nil_iff p [] items). constructor.
Qed.

(** X13: integers are compared by value: a root array of integers gives no
    record exactly when the integers are pairwise distinct. *)
Theorem int_array_records_nil_iff (ns : list Z) :
  find_duplicates (JArray (JInt <$> ns)) = [] ↔ NoDup ns.
Proof.
  unfold find_duplicates. rewrite traverse_spec.
  cbn [preorder app]. rewrite bind_cons.
  rewrite scalar_items_no_records, app_nil_r
    by (apply Forall_fmap, Forall_forall; done).
  unfold node_records. cbn [array_records path_from fst snd fold_left].
  pose proof (repeats_from_nil_iff "root" [] (JInt <$> ns) NoDup_nil_2)
    as Hnil.
  simpl in Hnil. change (Z.of_nat 0) with 0 in Hnil. rewrite Hnil.
  rewrite <- list_fmap_compose.
  apply (NoDup_fmap (item_str ∘ JInt)).
Qed.

(** X14: every record is about a real repeat: its path is the path of an
    array of the tree, its two indices are positions of that array, the first
    before the second, its value is the element at the second index, and the
    element at the first index has the same key. *)
Theorem records_are_repeats (v : Value) (r : DuplicateRecord) :
  r ∈ find_duplicates v →
  ∃ steps items x,
    (steps, JArray items) ∈ preorder v
    ∧ path r = path_text steps
    ∧ 0 ≤ (indices r).1 < (indices r).2
    ∧ items !! Z.to_nat (indices r).1 = Some x
    ∧ items !! Z.to_nat (indices r).2 = Some (value r)
    ∧ item_str x = item_str (value r).
Proof.
  unfold find_duplicates. rewrite traverse_spec. simpl.
  intros ([steps node] & Hr & Hsn)%list_elem_of_bind.
  unfold node_records in Hr. simpl in Hr.
  destruct node as [| | | | |items|]; try (by apply elem_of_nil in Hr).
  pose proof (repeats_from_firsts (path_from "root" steps) [] items) as Hall.
  rewrite Forall_forall in Hall. simpl in Hall.
  destruct (Hall r Hr) as (Hpath & Hfirst & Hlt & Hsecond).
  pose proof (first_index_from_bounds _ _ _ _ Hfirst) as Hb.
  destruct (first_index_from_lookup _ _ _ _ Hfirst) as (x & Hx & Hkey).
  rewrite Z.sub_0_r in Hx.
  exists steps, items, x. repeat split; try done; lia.
Qed.

(** The root array [[1, 1]] and its one record. *)
Lemma records_are_repeats_witness :
  repeat_of_one 0 1 ∈ find_duplicates (JArray [JInt 1; JInt 1])
  ∧ ∃ steps items x,
      (steps, JArray items) ∈ preorder (JArray [JInt 1; JInt 1])
      ∧ path (repeat_of_one 0 1) = path_text steps
      ∧ 0 ≤ (indices (repeat_of_one 0 1)).1 < (indices (repeat_of_one 0 1)).2
      ∧ items !! Z.to_nat (indices (repeat_of_one 0 1)).1 = Some x
      ∧ items !! Z.to_nat (indices (repeat_of_one 0 1)).2
        = Some (value (repeat_of_one 0 1))
      ∧ item_str x = item_str (value (repeat_of_one 0 1)).
Proof.
  assert (repeat_of_one 0 1 ∈ find_duplicates (JArray [JInt 1; JInt 1]))
    as Hr by (vm_compute; left).
  split; [exact Hr|exact (records_are_repeats _ _ Hr)].
Defined.

(** X15: every repeat is recorded: when two elements of an array of the tree
    have the same key, there is a record with the path of the array for the
    later one, with that element as value, its index as second index and a
    first index not after the earlier element. *)
Theorem repeats_are_recorded (v : Value) (steps : list Step)
    (items : list Value) (i j : nat) (x y : Value) :
  (steps, JArray items) ∈ preorder v →
  items !! i = Some x → items !! j = Some y → (i < j)%nat →
  item_str x = item_str y →
  ∃ r, r ∈ find_duplicates v
       ∧ path r = path_text steps
       ∧ value r = y
       ∧ (indices r).2 = Z.of_nat j
       ∧ (indices r).1 ≤ Z.of_nat i.
Proof.
  intros Hsn Hx Hy Hij Hkey.
  destruct (first_index_from_before (item_str y) items 0 i x Hx Hkey)
    as (first & Hfirst & Hle).
  exists {| path := path_text steps; value := y;
            indices := (first, 0 + Z.of_nat j) |}.
  repeat split; try done; try (simpl; lia).
  unfold find_duplicates. rewrite traverse_spec. simpl.
  apply list_elem_of_bind. exists (steps, JArray items). split; [|done].
  unfold node_records. simpl.
  apply (repeats_from_complete _ items items 0 j y first Hy Hfirst). lia.
Qed.

(** The two 1s of the root array [[1, 2, 1]]. *)
Lemma repeats_are_recorded_witness :
  ∃ r, r ∈ find_duplicates (JArray [JInt 1; JInt 2; JInt 1])
       ∧ path r = path_text []
       ∧ value r = JInt 1
       ∧ (indices r).2 = Z.of_nat 2
       ∧ (indices r).1 ≤ Z.of_nat 0.
Proof.
  apply (repeats_are_recorded (JArray [JInt 1; JInt 2; JInt 1]) []
           [JInt 1; JInt 2; JInt 1] 0 2 (JInt 1) (JInt 1)).
  - left.
  - reflexivity.
  - reflexivity.
  - lia.
  - reflexivity.
Defined.


(** ** The required keys on the command line *)

Section Cli_facts.
Import Cli.

Lemma has_String c a s :
  Text.has c (String a s) = bool_decide (c = a) || Text.has c s.
Proof.
  unfold Text.has. simpl.
  destruct (decide (c = a)) as [->|Hne].
  - rewrite (bool_decide_eq_true_2 (a = a)) by done. simpl.
    apply bool_decide_eq_true_2. left.
  - rewrite (bool_decide_eq_false_2 (c = a)) by done. simpl.
    apply bool_decide_ext. rewrite elem_of_cons.
    split; [by intros [?|?]|by right].
Qed.

Lemma has_String_false c a s :
  Text.has c (String a s) = false ↔ c ≠ a ∧ Text.has c s = false.
Proof.
  rewrite has_String, orb_false_iff, bool_decide_eq_false. done.
Qed.

Lemma split_nonempty sep s : split sep s ≠ [].
Proof.
  destruct s as [|c rest]; simpl; [done|].
  case_decide; [done|]. by destruct (split sep rest).
Qed.

Lemma split_length sep s : length (split sep s) = S (count_char sep s).
Proof.
  induction s as [|c rest IH]; simpl; [done|].
  case_decide; simpl; [by rewrite IH|].
  destruct (split sep rest); simpl in *; lia.
Qed.

Lemma split_no_sep sep s :
  Forall (λ piece, Text.has sep piece = false) (split sep s).
Proof.
  induction s as [|c rest IH]; simpl.
  - by repeat constructor.
  - case_decide as Hc.
    + constructor; [done|exact IH].
    + destruct (split sep rest) as [|piece pieces].
      * repeat constructor. apply has_String_false. split; [congruence|done].
      * apply Forall_cons_1 in IH as [Hpiece Hpieces].
        constructor; [|done]. apply has_String_false.
        split; [congruence|done].
Qed.




Lemma concat_split sep s : String.concat (String sep "") (split sep s) = s.
Proof.
  induction s as [|c rest IH]; [done|]. cbn [split].
  pose proof (split_nonempty sep rest) as Hne.
  destruct (split sep rest) as [|piece pieces]; [done|].
  case_decide as Hc.
  - subst c. cbn [String.concat]. cbn [String.concat] in IH.
    by rewrite IH.
  - destruct pieces as [|piece' pieces']; cbn [String.concat] in *;
      by rewrite <- IH.
Qed.

Lemma lstrip_has c s : Text.has c s = false → Text.has c (lstrip s) = false.
Proof.
  induction s as [|a rest IH]; simpl; [done|].
  destruct (is_space a); [|done].
  intros [_ Hrest]%has_String_false. by apply IH.
Qed.

Lemma rstrip_has c s : Text.has c s = false → Text.has c (rstrip s) = false.
Proof.
  induction s as [|a rest IH]; simpl; [done|].
  intros [Hne Hrest]%has_String_false. specialize (IH Hrest).
  destruct (rstrip rest) as [|b kept].
  - destruct (is_space a); [done|]. by apply has_String_false.
  - by apply has_String_false.
Qed.

Lemma lstrip_first s c :
  first_char (lstrip s) = Some c → is_space c = false.
Proof.
  induction s as [|a rest IH]; simpl; [done|].
  destruct (is_space a) eqn:Ha; [done|]. simpl. by intros [= <-].
Qed.

Lemma rstrip_first s c :
  first_char s = Some c → is_space c = false →
  first_char (rstrip s) = Some c.
Proof.
  destruct s as [|a rest]; simpl; [done|]. intros [= ->] Hc.
  destruct (rstrip rest); [by rewrite Hc|done].
Qed.

Lemma rstrip_last s c :
  last_char (rstrip s) = Some c → is_space c = false.
Proof.
  induction s as [|a rest IH]; simpl; [done|].
  destruct (rstrip rest) as [|b kept].
  - destruct (is_space a) eqn:Ha; [done|]. simpl. by intros [= <-].
  - exact IH.
Qed.

Lemma strip_clean s : Text.has "," s = false → clean_key (strip s).
Proof.
  intros Hs. unfold clean_key, strip. split; [|split].
  - by apply rstrip_has, lstrip_has.
  - intros c Hc. destruct (lstrip s) as [|a rest] eqn:Hl; [done|].
    assert (is_space a = false) as Ha
      by (apply (lstrip_first s); by rewrite Hl).
    rewrite (rstrip_first _ a) in Hc by done. by injection Hc as <-.
  - apply rstrip_last.
Qed.

End Cli_facts.

(** X16: splitting at commas loses nothing: joining the pieces with commas
    gives the argument back, there is one piece more than there are commas,
    and no piece holds a comma. *)
Theorem split_join_round_trip (arg : string) :
  String.concat "," (Cli.split "," arg) = arg
  ∧ length (Cli.split "," arg) = S (Cli.count_char "," arg)
  ∧ Forall (λ piece, Text.has "," piece = false) (Cli.split "," arg).
Proof.
  split; [apply concat_split|split; [apply split_length|apply split_no_sep]].
Qed.

(** X17: the keys read from the command line are never none: there is one key
    more than there are commas in the argument, and every key is clean: it
    holds no comma and neither starts nor ends with white space. *)
Theorem required_keys_shape (arg : string) :
  length (Cli.required_keys_of arg) = S (Cli.count_char "," arg)
  ∧ Forall Cli.clean_key (Cli.required_keys_of arg).
Proof.
  unfold Cli.required_keys_of. split.
  - by rewrite length_fmap, split_length.
  - apply Forall_fmap. eapply Forall_impl; [apply split_no_sep|].
    intros piece. apply strip_clean.
Qed.



(** X19: a validation started from the command line always judges at least
    one key: for an object root the found and the missing keys together are
    one more than the commas of the argument, and each of them is clean. *)
Theorem validate_from_cli_keys
    (fields : list (string * Value)) (arg : string) :
  let results := Cli.validate_from_cli (JObject fields) arg in
  (length (found_keys results) + length (missing_keys results))%nat
  = S (Cli.count_char "," arg)
  ∧ Forall Cli.clean_key (found_keys results ++ missing_keys results).
Proof.
  cbv zeta. unfold Cli.validate_from_cli, validate_schema.
  rewrite validate_loop. simpl.
  pose proof (filter_app_complement (λ k, k ∈ fields.*1)
                (Cli.required_keys_of arg)) as Hp.
  split.
  - rewrite <- length_app, Hp. unfold Cli.required_keys_of.
    rewrite length_fmap. apply split_length.
  - rewrite Hp. unfold Cli.required_keys_of. apply Forall_fmap.
    eapply Forall_impl; [apply split_no_sep|].
    intros piece. apply strip_clean.
Qed.
